(** * The URL consumer of linkchecker: [linkcheck/checker/consumer.py]

    A shallow embedding of class [Consumer] and proofs about its
    synchronisation, logging fan-out and abort protocol.

    The consumer talks to three collaborators whose code is not part of
    the module: the thread pool ([linkcheck.threader.Threader]), the URL
    cache and the loggers.  They are modelled by their observable
    behaviour: every call the consumer makes is appended to a trace, and
    the answers come from oracles carried by the world.  Each method of
    the class becomes a computation in a state-and-exception monad over
    that world.

    The world follows one thread of control.  The lock is seen through
    the [Acquire] and [Release] events of the trace.  The methods
    [config] and [get_country_name] and the [__getattr__] proxy to the
    cache read or forward without touching the counter or the loggers;
    they are left out. *)

From stdpp Require Import base tactics option list strings gmap.
From Stdlib Require Import ZArith Lia.

Local Open Scope Z_scope.

(** ** Data model *)

(** [url_data]: the attributes of a checked URL that the consumer reads. *)
Record UrlData := {
  url : string;
  valid : bool;
  cached : bool;
  caching : bool;
  warnings : list (string * string)
}.

(** A logger object, identified by its name. *)
Definition Logger := string.

(** [self._config]: [cfg_k] stands for [self._config['k']]. *)
Record Config := {
  cfg_threads : Z;
  cfg_logger : Logger;
  cfg_fileoutput : list Logger;
  cfg_verbose : bool;
  cfg_warnings : bool;
  cfg_ignorewarnings : gset string
}.

(** The exceptions the module distinguishes: the two caught by [abort],
    and everything else. *)
Inductive Exn :=
  | KeyboardInterrupt
  | SystemExit
  | Error (what : string).

(** What is written to [stderr] by [print_status] and its helpers. *)
Inductive StderrMsg :=
  | MsgStatus
  | MsgActive (active : Z)
  | MsgLinks (links : Z)
  | MsgTocheck (tocheck : Z)
  | MsgDuration (duration : Z)
  | MsgNewline.

(** The calls the consumer makes on its collaborators. *)
Inductive Call :=
  | PoolFinished
  | PoolActiveThreads
  | PoolFinish
  | PoolStartThread (u : UrlData) (name : string)
  | CacheIncomingAdd (u : UrlData)
  | CacheIncomingLen
  | CacheCheckedAdd (u : UrlData)
  | CacheInProgressRemove (u : UrlData) (ignore_missing : bool)
  | StartOutput (l : Logger)
  | EndOutput (l : Logger)
  | LogFilterUrl (l : Logger) (u : UrlData) (do_print : bool)
  | LogError (msg : string)
  | LogWarn (msg : string) (num : Z)
  | Sleep (secs : Z)
  | Stderr (msg : StderrMsg).

(** How a call ended. *)
Inductive Answer :=
  | Done
  | Bool (b : bool)
  | Int (z : Z)
  | Raised (e : Exn).

Inductive Event :=
  | Acquire
  | Release
  | Called (c : Call) (a : Answer).

(** A trace entry: the event, and the value [self._number] had when it
    happened. *)
Record Entry := { ev : Event; at_number : Z }.

(** The thread pool as the consumer sees it: the answer to the [n]-th
    [finished()] and [active_threads()] query. *)
Record Pool := {
  pool_num : Z;
  finished_at : nat → bool;
  finished_asked : nat;
  active_at : nat → Z;
  active_asked : nat
}.

(** The cache as the consumer sees it: the answer to the [n]-th
    [incoming_add()] and [incoming_len()] call. *)
Record Cache := {
  incoming_add_at : nat → bool;
  add_asked : nat;
  incoming_len_at : nat → Z;
  len_asked : nat
}.

(** The consumer's attributes, its collaborators and what happened so
    far.  [num_waited] does not exist until [abort] assigns it.
    [fails_at t] tells whether the collaborator call made when the trace
    has length [t] raises. *)
Record World := {
  _number : Z;
  num_waited : option Z;
  _config : Config;
  _threader : Pool;
  _cache : Cache;
  fails_at : nat → option Exn;
  trace : list Entry
}.

(** ** The monad *)

Inductive Result (A : Type) :=
  | Ok (a : A)
  | Raise (e : Exn)
  | OutOfFuel.
Arguments Ok {A} a.
Arguments Raise {A} e.
Arguments OutOfFuel {A}.

Definition M (A : Type) : Type := World → Result A * World.

Definition ret {A} (a : A) : M A := λ w, (Ok a, w).

Definition bind {A B} (m : M A) (k : A → M B) : M B := λ w,
  match m w with
  | (Ok a, w') => k a w'
  | (Raise e, w') => (Raise e, w')
  | (OutOfFuel, w') => (OutOfFuel, w')
  end.

Declare Scope M_scope.
Delimit Scope M_scope with M.
Bind Scope M_scope with M.
Notation "x ← y ; z" := (bind y (λ x, z))
  (at level 20, y at level 100, z at level 200, only parsing) : M_scope.
Notation "x ;; z" := (bind x (λ _, z))
  (at level 100, z at level 200, only parsing, right associativity) : M_scope.
Local Open Scope M_scope.

Definition record (e : Event) (w : World) : World :=
  {| _number := _number w; num_waited := num_waited w; _config := _config w;
     _threader := _threader w; _cache := _cache w; fails_at := fails_at w;
     trace := trace w ++ [{| ev := e; at_number := _number w |}] |}.

(** A call on a collaborator: it raises when the environment says so,
    and otherwise returns the collaborator's answer. *)
Definition external {A} (c : Call) (show : A → Answer)
    (respond : World → A * World) : M A := λ w,
  match fails_at w (length (trace w)) with
  | Some x => (Raise x, record (Called c (Raised x)) w)
  | None => let '(a, w') := respond w in (Ok a, record (Called c (show a)) w')
  end.

Definition procedure (c : Call) : M () :=
  external c (λ _, Done) (λ w, ((), w)).

(** ** The collaborators *)

Definition set_threader (p : Pool) (w : World) : World :=
  {| _number := _number w; num_waited := num_waited w; _config := _config w;
     _threader := p; _cache := _cache w; fails_at := fails_at w;
     trace := trace w |}.

Definition set_cache (c : Cache) (w : World) : World :=
  {| _number := _number w; num_waited := num_waited w; _config := _config w;
     _threader := _threader w; _cache := c; fails_at := fails_at w;
     trace := trace w |}.

Module Threader.
Definition finished : M bool :=
  external PoolFinished Bool (λ w,
    let p := _threader w in
    (finished_at p (finished_asked p),
     set_threader {| pool_num := pool_num p;
                     finished_at := finished_at p;
                     finished_asked := S (finished_asked p);
                     active_at := active_at p;
                     active_asked := active_asked p |} w)).

Definition active_threads : M Z :=
  external PoolActiveThreads Int (λ w,
    let p := _threader w in
    (active_at p (active_asked p),
     set_threader {| pool_num := pool_num p;
                     finished_at := finished_at p;
                     finished_asked := finished_asked p;
                     active_at := active_at p;
                     active_asked := S (active_asked p) |} w)).

Definition finish : M () := procedure PoolFinish.

Definition start_thread (u : UrlData) (name : string) : M () :=
  procedure (PoolStartThread u name).
End Threader.

Module CacheObj.
Definition incoming_add (u : UrlData) : M bool :=
  external (CacheIncomingAdd u) Bool (λ w,
    let c := _cache w in
    (incoming_add_at c (add_asked c),
     set_cache {| incoming_add_at := incoming_add_at c;
                  add_asked := S (add_asked c);
                  incoming_len_at := incoming_len_at c;
                  len_asked := len_asked c |} w)).

Definition incoming_len : M Z :=
  external CacheIncomingLen Int (λ w,
    let c := _cache w in
    (incoming_len_at c (len_asked c),
     set_cache {| incoming_add_at := incoming_add_at c;
                  add_asked := add_asked c;
                  incoming_len_at := incoming_len_at c;
                  len_asked := S (len_asked c) |} w)).

Definition checked_add (u : UrlData) : M () :=
  procedure (CacheCheckedAdd u).

Definition in_progress_remove (u : UrlData) (ignore_missing : bool) : M () :=
  procedure (CacheInProgressRemove u ignore_missing).
End CacheObj.

Module LoggerObj.
Definition start_output (l : Logger) : M () := procedure (StartOutput l).
Definition end_output (l : Logger) : M () := procedure (EndOutput l).
Definition log_filter_url (l : Logger) (u : UrlData) (do_print : bool) : M () :=
  procedure (LogFilterUrl l u do_print).
End LoggerObj.

(** [for x in xs: body(x)] *)
Fixpoint for_each {A} (xs : list A) (body : A → M ()) : M () :=
  match xs with
  | [] => ret ()
  | x :: rest => body x ;; for_each rest body
  end.

(** Modelled from the spec: the decorator [linkcheck.decorators.synchronized]
    is not part of the module.  The operation "acquires one process-wide
    lock for its full duration, with guaranteed release on every exit path
    (including thrown errors)". *)
Definition synchronized {A} (body : M A) : M A := λ w,
  let '(r, w') := body (record Acquire w) in (r, record Release w').

(** ** The consumer *)

Definition get_config : M Config := λ w, (Ok (_config w), w).

Definition set_number (n : Z) : M () := λ w,
  (Ok (),
   {| _number := n; num_waited := num_waited w; _config := _config w;
      _threader := _threader w; _cache := _cache w; fails_at := fails_at w;
      trace := trace w |}).

Definition get_number : M Z := λ w, (Ok (_number w), w).

(** The loop of [_log_url] over [url_data.warnings], leaving at the first
    tag that is not ignored. *)
Fixpoint has_warnings (ws : list (string * string)) (ignore : gset string) : bool :=
  match ws with
  | [] => false
  | (tag, content) :: rest =>
      if decide (tag ∈ ignore) then has_warnings rest ignore else true
  end.

Definition do_print (cfg : Config) (u : UrlData) : bool :=
  cfg_verbose cfg || negb (valid u) ||
  (has_warnings (warnings u) (cfg_ignorewarnings cfg) && cfg_warnings cfg).

Definition _log_url (u : UrlData) : M () :=
  n ← get_number;
  set_number (n + 1) ;;
  cfg ← get_config;
  let do_print := do_print cfg u in
  LoggerObj.log_filter_url (cfg_logger cfg) u do_print ;;
  for_each (cfg_fileoutput cfg) (λ log, LoggerObj.log_filter_url log u do_print).

Definition append_url (u : UrlData) : M () :=
  synchronized (
    added ← CacheObj.incoming_add u;
    if negb added then _log_url u else ret ()).

(** Modelled from the spec: [linkcheck.strformat.ascii_safe] is not part
    of the module; it "sanitizes the supplied thread name to a safe
    character set".  Here: the characters outside ASCII are dropped. *)
Fixpoint ascii_safe (s : string) : string :=
  match s with
  | EmptyString => EmptyString
  | String c rest =>
      if (Ascii.N_of_ascii c <? 128)%N then String c (ascii_safe rest)
      else ascii_safe rest
  end.

Definition check_url (u : UrlData) (name : string) : M () :=
  let name := ascii_safe name in
  Threader.start_thread u name.

Definition checked (u : UrlData) : M () :=
  synchronized (
    _log_url u ;;
    if caching u && negb (cached u) then CacheObj.checked_add u
    else CacheObj.in_progress_remove u false).

Definition interrupted (u : UrlData) : M () :=
  synchronized (CacheObj.in_progress_remove u true).

Definition finished : M bool :=
  synchronized (
    done ← Threader.finished;
    if done then n ← CacheObj.incoming_len; ret (n =? 0)
    else ret false).

Definition finish : M () := synchronized Threader.finish.

Definition no_more_threads : M bool := synchronized Threader.finished.

Definition start_log_output : M () :=
  synchronized (
    cfg ← get_config;
    LoggerObj.start_output (cfg_logger cfg) ;;
    for_each (cfg_fileoutput cfg) LoggerObj.start_output).

Definition log_url (u : UrlData) : M () := synchronized (_log_url u).

Definition end_log_output : M () :=
  synchronized (
    cfg ← get_config;
    LoggerObj.end_output (cfg_logger cfg) ;;
    for_each (cfg_fileoutput cfg) LoggerObj.end_output).

Definition active_threads : M Z := synchronized Threader.active_threads.

(** [print_status]; the helpers [print_active], [print_links],
    [print_tocheck] and [print_duration] each write one message.  Times
    are taken as integers. *)
Definition print_status (curtime start_time : Z) : M () :=
  synchronized (
    procedure (Stderr MsgStatus) ;;
    active ← Threader.active_threads;
    procedure (Stderr (MsgActive active)) ;;
    links ← get_number;
    procedure (Stderr (MsgLinks links)) ;;
    tocheck ← CacheObj.incoming_len;
    procedure (Stderr (MsgTocheck tocheck)) ;;
    procedure (Stderr (MsgDuration (curtime - start_time))) ;;
    procedure (Stderr MsgNewline)).

(** The options that the module looks up in [self._config]. *)
Definition config_options : list string :=
  ["threads"; "logger"; "fileoutput"; "ignorewarnings"; "verbose"; "warnings";
   "geoip"]%string.

(** [self._config[key].append(val)].  The lookup comes first: a key that
    is not in the mapping raises [KeyError].  Of the values held by
    [Config], [fileoutput] is the list; the number, the two booleans, the
    logger, the set of ignored tags and the geoip handle have no
    [append], which raises [AttributeError]. *)
Definition config_append (key : string) (val : Logger) : M () :=
  synchronized (λ w,
    if decide (key = "fileoutput"%string) then
      let cfg := _config w in
      (Ok (),
       {| _number := _number w; num_waited := num_waited w;
          _config := {| cfg_threads := cfg_threads cfg;
                        cfg_logger := cfg_logger cfg;
                        cfg_fileoutput := cfg_fileoutput cfg ++ [val];
                        cfg_verbose := cfg_verbose cfg;
                        cfg_warnings := cfg_warnings cfg;
                        cfg_ignorewarnings := cfg_ignorewarnings cfg |};
          _threader := _threader w; _cache := _cache w;
          fails_at := fails_at w; trace := trace w |})
    else if decide (key ∈ config_options) then (Raise (Error "AttributeError"), w)
    else (Raise (Error "KeyError"), w)).

(** *** Abort *)

Definition get_num_waited : M Z := λ w,
  match num_waited w with
  | Some n => (Ok n, w)
  | None => (Raise (Error "AttributeError"), w)
  end.

Definition set_num_waited (n : Z) : M () := λ w,
  (Ok (),
   {| _number := _number w; num_waited := Some n; _config := _config w;
      _threader := _threader w; _cache := _cache w; fails_at := fails_at w;
      trace := trace w |}).

(** Modelled from the spec: the plural selection [_n] comes from the
    installed translation; messages are "rendered with correct
    plural/singular wording based on count". *)
Definition _n (singular plural : string) (n : Z) : string :=
  if n =? 1 then singular else plural.

(** The [while] loop of [_abort]; [fuel] bounds the number of passes. *)
Fixpoint _abort_loop (fuel : nat) : M () :=
  match fuel with
  | O => λ w, (OutOfFuel, w)
  | S fuel' =>
      done ← no_more_threads;
      if done then end_log_output
      else
        waited ← get_num_waited;
        if 30 <? waited then
          procedure (LogError "Thread wait timeout") ;;
          end_log_output
        else
          num ← active_threads;
          let msg :=
            _n "keyboard interrupt; waiting for %d active thread to finish"
               "keyboard interrupt; waiting for %d active threads to finish"
               num in
          procedure (LogWarn msg num) ;;
          finish ;;
          waited ← get_num_waited;
          set_num_waited (waited + 1) ;;
          procedure (Sleep 2) ;;
          _abort_loop fuel'
  end.

(** The number of passes the loop can make from the current value of
    [num_waited] before the timeout test stops it. *)
Definition passes_left (w : World) : nat :=
  match num_waited w with
  | Some n => S (Z.to_nat (31 - n))
  | None => 1
  end.

Definition _abort : M () := λ w, _abort_loop (passes_left w) w.

(** The [while True] loop of [abort]: it is left when [_abort] returns,
    and goes round again on [KeyboardInterrupt] and [SystemExit]. *)
Fixpoint abort_retry (fuel : nat) : M () := λ w,
  match fuel with
  | O => (OutOfFuel, w)
  | S fuel' =>
      match _abort w with
      | (Raise KeyboardInterrupt, w') => abort_retry fuel' w'
      | (Raise SystemExit, w') => abort_retry fuel' w'
      | other => other
      end
  end.

Definition abort (fuel : nat) : M () :=
  set_num_waited 0 ;; abort_retry fuel.

(** *** Construction *)

(** What the environment decides: the behaviour of the pool that
    [Threader(num=...)] creates, and which calls raise. *)
Record Env := {
  env_finished : nat → bool;
  env_active : nat → Z;
  env_fails : nat → option Exn
}.

Definition new_Threader (env : Env) (num : Z) : Pool :=
  {| pool_num := num; finished_at := env_finished env; finished_asked := 0;
     active_at := env_active env; active_asked := 0 |}.

Definition __init__ (env : Env) (config : Config) (cache : Cache)
    : Result () * World :=
  start_log_output
    {| _number := 0; num_waited := None; _config := config;
       _threader := new_Threader env (cfg_threads config); _cache := cache;
       fails_at := env_fails env; trace := [] |}.

(** ** Sequences of operations *)

Inductive Op :=
  | OpConfigAppend (key : string) (val : Logger)
  | OpAppendUrl (u : UrlData)
  | OpCheckUrl (u : UrlData) (name : string)
  | OpChecked (u : UrlData)
  | OpInterrupted (u : UrlData)
  | OpFinished
  | OpFinish
  | OpNoMoreThreads
  | OpAbort (fuel : nat)
  | OpPrintStatus (curtime start_time : Z)
  | OpStartLogOutput
  | OpLogUrl (u : UrlData)
  | OpEndLogOutput
  | OpActiveThreads.

Definition exec {A} (m : M A) (w : World) : World := snd (m w).

Definition run_op (op : Op) : World → World :=
  match op with
  | OpConfigAppend key val => exec (config_append key val)
  | OpAppendUrl u => exec (append_url u)
  | OpCheckUrl u name => exec (check_url u name)
  | OpChecked u => exec (checked u)
  | OpInterrupted u => exec (interrupted u)
  | OpFinished => exec finished
  | OpFinish => exec finish
  | OpNoMoreThreads => exec no_more_threads
  | OpAbort fuel => exec (abort fuel)
  | OpPrintStatus curtime start_time => exec (print_status curtime start_time)
  | OpStartLogOutput => exec start_log_output
  | OpLogUrl u => exec (log_url u)
  | OpEndLogOutput => exec end_log_output
  | OpActiveThreads => exec active_threads
  end.

Definition run_ops (ops : list Op) (w : World) : World :=
  foldl (λ w op, run_op op w) w ops.

(** ** Reading traces *)

(** The events added to the trace of [w] by the time it has become [w']. *)
Definition news (w w' : World) : list Entry :=
  drop (length (trace w)) (trace w').

Definition events (es : list Entry) : list Event := ev <$> es.

(** No collaborator call raises. *)
Definition quiet (w : World) : Prop := ∀ t, fails_at w t = None.

(** An example world. *)
Definition example_config : Config :=
  {| cfg_threads := 10; cfg_logger := "text";
     cfg_fileoutput := ["html"; "csv"]%string;
     cfg_verbose := false; cfg_warnings := true; cfg_ignorewarnings := ∅ |}.

Definition example_cache : Cache :=
  {| incoming_add_at := λ n, bool_decide (n = 0%nat); add_asked := 0;
     incoming_len_at := λ _, 0; len_asked := 0 |}.

Definition busy_env : Env :=
  {| env_finished := λ _, false; env_active := λ _, 3;
     env_fails := λ _, None |}.

Definition idle_env : Env :=
  {| env_finished := λ _, true; env_active := λ _, 0;
     env_fails := λ _, None |}.

Definition world_of (env : Env) : World :=
  {| _number := 0; num_waited := None; _config := example_config;
     _threader := new_Threader env 10; _cache := example_cache;
     fails_at := env_fails env; trace := [] |}.

Definition item_A : UrlData :=
  {| url := "http://a/"; valid := true; cached := false; caching := true;
     warnings := [("slow", "took long")]%string |}.

Definition item_B : UrlData :=
  {| url := "http://b/"; valid := true; cached := false; caching := true;
     warnings := [] |}.

(** ** Vocabulary for the properties *)

(** Appending several events at once. *)
Definition records (es : list Event) (w : World) : World :=
  foldl (λ w e, record e w) w es.

(** The entry for an event that happens while the counter is [n]. *)
Definition entry_at (n : Z) (e : Event) : Entry := {| ev := e; at_number := n |}.

(** The world once [self._number += 1] has run. *)
Definition bump (w : World) : World := snd (set_number (_number w + 1) w).

(** The calls of one run of [_log_url]: the primary logger, then the
    file-output loggers in list order. *)
Definition log_block (cfg : Config) (u : UrlData) (print : bool) : list Event :=
  (λ l, Called (LogFilterUrl l u print) Done) <$>
    (cfg_logger cfg :: cfg_fileoutput cfg).

(** The calls of [start_log_output] and [end_log_output]. *)
Definition start_block (cfg : Config) : list Event :=
  [Acquire] ++
  ((λ l, Called (StartOutput l) Done) <$> (cfg_logger cfg :: cfg_fileoutput cfg)) ++
  [Release].

Definition end_block (cfg : Config) : list Event :=
  [Acquire] ++
  ((λ l, Called (EndOutput l) Done) <$> (cfg_logger cfg :: cfg_fileoutput cfg)) ++
  [Release].

(** The cache operations that change the cache after a check. *)
Definition cache_mutation (e : Event) : option Call :=
  match e with
  | Called (CacheCheckedAdd u) _ => Some (CacheCheckedAdd u)
  | Called (CacheInProgressRemove u i) _ => Some (CacheInProgressRemove u i)
  | _ => None
  end.

Definition cache_mutations (es : list Event) : list Call := omap cache_mutation es.

(** [w'] differs from [w] at most in the state of the collaborators. *)
Definition same_consumer (w w' : World) : Prop :=
  _number w' = _number w ∧ num_waited w' = num_waited w ∧
  _config w' = _config w ∧ fails_at w' = fails_at w ∧ trace w' = trace w.

(** A relation between the world before and after, which holds across
    lock operations and across changes inside the collaborators. *)
Class Invariant (R : World → World → Prop) := {
  inv_preorder :: PreOrder R;
  inv_collaborators : ∀ w w', same_consumer w w' → R w w';
  inv_acquire : ∀ w, R w (record Acquire w);
  inv_release : ∀ w, R w (record Release w)
}.

(** [m] keeps [R], however it ends. *)
Definition obeys (R : World → World → Prop) {A} (m : M A) : Prop :=
  ∀ w, R w (snd (m w)).

(** Recording a call [c] keeps [R]. *)
Definition admits (R : World → World → Prop) (c : Call) : Prop :=
  ∀ w a, R w (record (Called c a) w).

(** An admission call that reported an item as already known. *)
Definition is_rejection (e : Entry) : bool :=
  match ev e with
  | Called (CacheIncomingAdd _) (Bool false) => true
  | _ => false
  end.

(** Only [append_url] calls [incoming_add], once: the rejections in a
    trace are the [append_url()] calls whose item was not admitted. *)
Definition rejections (es : list Entry) : nat :=
  length (List.filter is_rejection es).

(** Between [w] and [w'] the counter moved by [k], apart from one step
    for every rejected admission. *)
Definition logged (k : Z) (w w' : World) : Prop :=
  ∃ new, trace w' = trace w ++ new ∧
         _number w' = _number w + k + Z.of_nat (rejections new).

(** Nothing was logged and no admission was rejected. *)
Definition unlogged (w w' : World) : Prop :=
  ∃ new, trace w' = trace w ++ new ∧ rejections new = 0%nat ∧
         _number w' = _number w.

(** The admission call of the cache, [incoming_add]. *)
Definition is_admission (c : Call) : bool :=
  match c with CacheIncomingAdd _ => true | _ => false end.

(** How many times an operation runs [_log_url] whatever the cache
    answers. *)
Definition logs (op : Op) : Z :=
  match op with
  | OpChecked _ | OpLogUrl _ => 1
  | _ => 0
  end.

(** The number of [checked()] and of [log_url()] calls in a sequence. *)
Definition checked_calls (ops : list Op) : nat :=
  length (List.filter (λ op, match op with OpChecked _ => true | _ => false end) ops).

Definition log_url_calls (ops : list Op) : nat :=
  length (List.filter (λ op, match op with OpLogUrl _ => true | _ => false end) ops).

(** A call of [log_filter_url] on some logger. *)
Definition is_log_emission (e : Event) : bool :=
  match e with
  | Called (LogFilterUrl _ _ _) _ => true
  | _ => false
  end.

(** Only entries without a cache update were added. *)
Definition cache_untouched (w w' : World) : Prop :=
  ∃ new, trace w' = trace w ++ new ∧
         Forall (λ e, cache_mutation (ev e) = None) new.

(** The number of events of a kind. *)
Definition count (P : Event → bool) (es : list Event) : nat :=
  length (List.filter P es).

(** The loop test found the pool unfinished: one pass through the body. *)
Definition is_pass (e : Event) : bool :=
  match e with Called PoolFinished (Bool false) => true | _ => false end.

(** A completed wait: [finish()], count, [sleep(2)]. *)
Definition is_wait (e : Event) : bool :=
  match e with Called (Sleep _) _ => true | _ => false end.

(** The error logged when the wait is given up. *)
Definition is_timeout (e : Event) : bool :=
  match e with Called (LogError _) _ => true | _ => false end.

(** The loggers on which [end_output()] was called, in order. *)
Definition ended (es : list Event) : list Logger :=
  omap (λ e, match e with Called (EndOutput l) _ => Some l | _ => None end) es.

(** One full pass of the loop body with [num] active threads. *)
Definition round_events (num : Z) : list Event :=
  [Acquire; Called PoolFinished (Bool false); Release;
   Acquire; Called PoolActiveThreads (Int num); Release;
   Called (LogWarn
     (_n "keyboard interrupt; waiting for %d active thread to finish"
         "keyboard interrupt; waiting for %d active threads to finish" num)
     num) Done;
   Acquire; Called PoolFinish Done; Release;
   Called (Sleep 2) Done].

(** [k] passes in a row; the pool's [active_threads()] answers are taken
    from answer number [from] on. *)
Fixpoint rounds (active : nat → Z) (from k : nat) : list Event :=
  match k with
  | O => []
  | S k' => round_events (active from) ++ rounds active (S from) k'
  end.

(** The events of a whole run of [abort] on a pool whose first [k]
    answers to [finished()] are false. *)
Definition abort_events (cfg : Config) (active : nat → Z) (from k : nat) : list Event :=
  rounds active from (k `min` 31) ++
  (if decide (k = 32%nat)
   then [Acquire; Called PoolFinished (Bool false); Release;
         Called (LogError "Thread wait timeout") Done]
   else [Acquire; Called PoolFinished (Bool true); Release]) ++
  end_block cfg.






(** An abort that is interrupted twice: by a [KeyboardInterrupt] during
    the first [sleep], and by a [SystemExit] from the second logger's
    [end_output()]. *)
Definition stormy_env : Env :=
  {| env_finished := λ n, bool_decide (1 ≤ n)%nat;
     env_active := λ _, 1;
     env_fails := λ t,
       if decide (t = 10%nat) then Some KeyboardInterrupt
       else if decide (t = 16%nat) then Some SystemExit
       else None |}.

(** *** Vocabulary for interrupted runs *)










(** *** Vocabulary for the lock, the calls and the waits *)

(** Whether the source makes the call [c] inside a synchronized method.
    The calls made outside are those of [check_url] and of the loop of
    [_abort]: starting a thread, the two log messages and the sleep. *)
Definition needs_lock (c : Call) : bool :=
  match c with
  | PoolStartThread _ _ | LogError _ | LogWarn _ _ | Sleep _ => false
  | _ => true
  end.

(** Follows the lock through a list of events, starting with the lock
    held or not.  The scan fails when the lock is taken while held,
    released while free, or when a call is made on the wrong side of it;
    otherwise it tells whether the lock is held at the end. *)
Fixpoint lock_scan (held : bool) (es : list Event) : option bool :=
  match es with
  | [] => Some held
  | Acquire :: rest => if held then None else lock_scan true rest
  | Release :: rest => if held then lock_scan false rest else None
  | Called c _ :: rest =>
      if Bool.eqb (needs_lock c) held then lock_scan held rest else None
  end.

(** Whether the lock is held after the events [es], starting free. *)
Definition lock_held (es : list Event) : bool :=
  foldl (λ h e, match e with
                | Acquire => true
                | Release => false
                | Called _ _ => h
                end) false es.

(** A property of the added entries that holds of nothing added and of
    one addition after another. *)
Class Closed (P : list Entry → Prop) := {
  closed_nil : P [];
  closed_app : ∀ a b, P a → P b → P (a ++ b)
}.

(** [w'] continues [w]: the entries added satisfy [P] and the two worlds
    are related by [Q]. *)
Definition adding (P : list Entry → Prop) (Q : World → World → Prop)
    (w w' : World) : Prop :=
  ∃ new, trace w' = trace w ++ new ∧ P new ∧ Q w w'.

Definition any_world (w w' : World) : Prop := True.

Definition lock_kept (held : bool) (new : list Entry) : Prop :=
  lock_scan held (events new) = Some held.

(** The lock is as it was, and every call was on the right side of it. *)
Definition locked (held : bool) : World → World → Prop :=
  adding (lock_kept held) any_world.

(** The operations that run [_log_url]. *)
Definition is_logging_op (op : Op) : bool :=
  match op with
  | OpAppendUrl _ | OpChecked _ | OpLogUrl _ => true
  | _ => false
  end.

Definition no_log_emission (new : list Entry) : Prop :=
  Forall (λ e, is_log_emission (ev e) = false) new.

Definition same_number (w w' : World) : Prop := _number w' = _number w.

(** No logger received an item and the counter did not move. *)
Definition silent : World → World → Prop := adding no_log_emission same_number.

(** The calls that [abort] makes. *)
Definition abort_call (c : Call) : bool :=
  match c with
  | PoolFinished | PoolActiveThreads | PoolFinish
  | EndOutput _ | LogError _ | LogWarn _ _ | Sleep _ => true
  | _ => false
  end.

Definition abort_calls_only (new : list Entry) : Prop :=
  Forall (λ e, match ev e with
               | Called c _ => abort_call c = true
               | _ => True
               end) new.

Definition same_crawl (w w' : World) : Prop :=
  _number w' = _number w ∧ _config w' = _config w ∧ _cache w' = _cache w.

(** Only calls of [abort] were made; the counter, the configuration and
    the cache are as they were. *)
Definition abort_only : World → World → Prop := adding abort_calls_only same_crawl.

Definition no_sleep (new : list Entry) : Prop :=
  count is_wait (events new) = 0%nat.

Definition same_num_waited (w w' : World) : Prop := num_waited w' = num_waited w.

(** No sleep was started and [num_waited] is as it was. *)
Definition restful : World → World → Prop := adding no_sleep same_num_waited.

(** Between [w] and [w'], [num_waited] grew by the number of sleeps
    started, and stayed within 31. *)
Definition slept (w w' : World) : Prop :=
  ∀ n, num_waited w = Some n → n ≤ 31 →
  ∃ new, trace w' = trace w ++ new ∧
    num_waited w' = Some (n + Z.of_nat (count is_wait (events new))) ∧
    n + Z.of_nat (count is_wait (events new)) ≤ 31.

(** ** Basic facts about the monad and the trace *)

Lemma records_app es1 es2 w :
  records (es1 ++ es2) w = records es2 (records es1 w).
Proof. apply foldl_app. Qed.

Lemma records_fields es w :
  _number (records es w) = _number w ∧
  num_waited (records es w) = num_waited w ∧
  _config (records es w) = _config w ∧
  _threader (records es w) = _threader w ∧
  _cache (records es w) = _cache w ∧
  fails_at (records es w) = fails_at w ∧
  trace (records es w) = trace w ++ (entry_at (_number w) <$> es).
Proof.
  revert w. induction es as [|e es IH]; intros w; simpl.
  - by rewrite app_nil_r.
  - destruct (IH (record e w)) as (-> & -> & -> & -> & -> & -> & ->).
    simpl. by rewrite <- app_assoc.
Qed.

Lemma records_trace es w :
  trace (records es w) = trace w ++ (entry_at (_number w) <$> es).
Proof. apply records_fields. Qed.

Lemma records_number es w : _number (records es w) = _number w.
Proof. apply records_fields. Qed.

Lemma news_app w w' es : trace w' = trace w ++ es → news w w' = es.
Proof. intros H. unfold news. by rewrite H, drop_app_length. Qed.

Lemma news_records w w0 es :
  trace w0 = trace w → news w (records es w0) = entry_at (_number w0) <$> es.
Proof. intros H. apply news_app. by rewrite records_trace, H. Qed.

Lemma events_entry_at n es : events (entry_at n <$> es) = es.
Proof.
  unfold events. rewrite <- list_fmap_compose.
  induction es; simpl; [done | by f_equal].
Qed.

Lemma external_quiet {A} c show respond w :
  quiet w →
  @external A c show respond w =
    (Ok (fst (respond w)), record (Called c (show (fst (respond w)))) (snd (respond w))).
Proof. intros Hq. unfold external. rewrite Hq. by destruct (respond w). Qed.

Lemma procedure_quiet c w :
  quiet w → procedure c w = (Ok (), record (Called c Done) w).
Proof. intros Hq. unfold procedure. by rewrite external_quiet. Qed.

Lemma quiet_records es w : quiet w → quiet (records es w).
Proof.
  intros Hq t. destruct (records_fields es w) as (_ & _ & _ & _ & _ & -> & _).
  apply Hq.
Qed.

(** A loop of calls that all return appends one event per element. *)
Lemma for_each_quiet {A} (f : A → Call) xs w :
  quiet w →
  for_each xs (λ x, procedure (f x)) w =
    (Ok (), records ((λ x, Called (f x) Done) <$> xs) w).
Proof.
  revert w. induction xs as [|x xs IH]; intros w Hq; [done|].
  simpl. unfold bind. rewrite procedure_quiet by done.
  rewrite IH; [done|]. apply (quiet_records [_] w Hq).
Qed.

(** When the loop returns, every call in it returned. *)
Lemma procedure_Ok c w w' :
  procedure c w = (Ok (), w') → w' = record (Called c Done) w.
Proof.
  unfold procedure, external. destruct (fails_at w _); [done|].
  by intros [= <-].
Qed.

Lemma for_each_Ok {A} (f : A → Call) xs w w' :
  for_each xs (λ x, procedure (f x)) w = (Ok (), w') →
  w' = records ((λ x, Called (f x) Done) <$> xs) w.
Proof.
  revert w. induction xs as [|x xs IH]; intros w; simpl.
  - by intros [= <-].
  - unfold bind. destruct (procedure (f x) w) as [[[]|e|] w1] eqn:E; try done.
    apply procedure_Ok in E as ->. apply IH.
Qed.

Lemma bind_Ok {A B} (m : M A) (k : A → M B) w b w' :
  bind m k w = (Ok b, w') →
  ∃ a w1, m w = (Ok a, w1) ∧ k a w1 = (Ok b, w').
Proof.
  unfold bind. destruct (m w) as [[a|e|] w1]; [eauto | done | done].
Qed.


(** ** Executions in which no collaborator raises *)

Ltac quiet_step Hq :=
  unfold bind;
  first
    [ rewrite (procedure_quiet _ _) by exact Hq
    | rewrite (for_each_quiet _ _ _) by (try exact Hq; by apply quiet_records)
    | rewrite (external_quiet _ _ _ _) by exact Hq ];
  cbn [fst snd].

Lemma _log_url_quiet u w :
  quiet w →
  _log_url u w =
    (Ok (), records (log_block (_config w) u (do_print (_config w) u)) (bump w)).
Proof.
  intros Hq. unfold _log_url, get_number, get_config, LoggerObj.log_filter_url.
  unfold bind at 1 2 3. cbn [set_number fst snd _config].
  repeat quiet_step Hq. done.
Qed.

Lemma has_warnings_spec ws (ignore : gset string) :
  has_warnings ws ignore = true ↔
  ∃ tag content, (tag, content) ∈ ws ∧ tag ∉ ignore.
Proof.
  induction ws as [|[tag content] ws IH]; simpl.
  - split; [done|]. intros (? & ? & H & _). by apply elem_of_nil in H.
  - destruct (decide (tag ∈ ignore)) as [Hin|Hout].
    + rewrite IH. split.
      * intros (t & c & H & Ht). exists t, c. split; [by right | done].
      * intros (t & c & H & Ht). apply elem_of_cons in H as [[= -> ->]|H].
        -- done.
        -- by exists t, c.
    + split; [|done]. intros _. exists tag, content. split; [by left | done].
Qed.

(** C7.  [_log_url] finds [has_warnings] true exactly when some warning
    tag of the item is not in [ignorewarnings]; it computes
    [do_print = verbose or not valid or (has_warnings and warnings)]; and
    when no logger raises it calls [log_filter_url(url_data, do_print)] on
    the primary logger and then on every file-output logger in list
    order, whatever the value of [do_print]. *)
Theorem log_url_fans_out (u : UrlData) (w : World) :
  quiet w →
  let cfg := _config w in
  let hw := has_warnings (warnings u) (cfg_ignorewarnings cfg) in
  let print := cfg_verbose cfg || negb (valid u) || (hw && cfg_warnings cfg) in
  (hw = true ↔
     ∃ tag content, (tag, content) ∈ warnings u ∧ tag ∉ cfg_ignorewarnings cfg) ∧
  ∃ w', _log_url u w = (Ok (), w') ∧
        events (news w w') =
          Called (LogFilterUrl (cfg_logger cfg) u print) Done ::
          ((λ l, Called (LogFilterUrl l u print) Done) <$> cfg_fileoutput cfg).
Proof.
  intros Hq cfg hw print. split; [apply has_warnings_spec|].
  eexists. split; [by apply _log_url_quiet|].
  rewrite (news_records w (bump w)) by done. by rewrite events_entry_at.
Qed.

Lemma log_url_fans_out_witness :
  ∃ w', _log_url item_B (world_of idle_env) = (Ok (), w') ∧
        events (news (world_of idle_env) w') =
          [Called (LogFilterUrl "text" item_B false) Done;
           Called (LogFilterUrl "html" item_B false) Done;
           Called (LogFilterUrl "csv" item_B false) Done].
Proof.
  apply (log_url_fans_out item_B (world_of idle_env)).
  intros t. reflexivity.
Defined.

(** The two scenarios of the specification: a valid item with a warning
    that is not ignored is printed when warnings are enabled; a valid
    item without warnings is not. *)
Example do_print_item_A : do_print example_config item_A = true.
Proof. reflexivity. Qed.

Example do_print_item_B : do_print example_config item_B = false.
Proof. reflexivity. Qed.

Lemma start_log_output_quiet w :
  quiet w → start_log_output w = (Ok (), records (start_block (_config w)) w).
Proof.
  intros Hq. unfold start_log_output, synchronized, get_config.
  unfold LoggerObj.start_output, bind at 1. cbn [_config record].
  repeat quiet_step Hq. unfold start_block.
  by rewrite !records_app.
Qed.

Lemma end_log_output_quiet w :
  quiet w → end_log_output w = (Ok (), records (end_block (_config w)) w).
Proof.
  intros Hq. unfold end_log_output, synchronized, get_config.
  unfold LoggerObj.end_output, bind at 1. cbn [_config record].
  repeat quiet_step Hq. unfold end_block.
  by rewrite !records_app.
Qed.

(** C10.  Constructing the consumer starts the output: when no logger
    raises, [__init__] returns after [start_output()] has been called on
    the primary logger and on every file-output logger in list order,
    and nothing else has happened. *)
Theorem init_starts_output (env : Env) (config : Config) (cache : Cache) :
  (∀ t, env_fails env t = None) →
  ∃ w, __init__ env config cache = (Ok (), w) ∧
       _number w = 0 ∧
       events (trace w) =
         [Acquire; Called (StartOutput (cfg_logger config)) Done] ++
         ((λ l, Called (StartOutput l) Done) <$> cfg_fileoutput config) ++
         [Release].
Proof.
  intros Hq. unfold __init__. eexists. split.
  - apply start_log_output_quiet. intros t. apply Hq.
  - destruct (records_fields (start_block config)
      {| _number := 0; num_waited := None; _config := config;
         _threader := new_Threader env (cfg_threads config); _cache := cache;
         fails_at := env_fails env; trace := [] |})
      as (Hn & _ & _ & _ & _ & _ & Ht).
    cbn [_config] in *. rewrite Hn, Ht. split; [done|].
    cbn [trace app _number]. by rewrite events_entry_at.
Qed.

Lemma init_starts_output_witness :
  ∃ w, __init__ idle_env example_config example_cache = (Ok (), w) ∧
       _number w = 0 ∧
       events (trace w) =
         [Acquire; Called (StartOutput "text") Done;
          Called (StartOutput "html") Done; Called (StartOutput "csv") Done;
          Release].
Proof.
  apply (init_starts_output idle_env example_config example_cache).
  intros t. reflexivity.
Defined.

Lemma cache_mutations_app es1 es2 :
  cache_mutations (es1 ++ es2) = cache_mutations es1 ++ cache_mutations es2.
Proof. apply omap_app. Qed.

Lemma cache_mutations_log_block cfg u print :
  cache_mutations (log_block cfg u print) = [].
Proof.
  unfold log_block. generalize (cfg_logger cfg :: cfg_fileoutput cfg).
  intros ls. by induction ls.
Qed.

Lemma events_app es1 es2 : events (es1 ++ es2) = events es1 ++ events es2.
Proof. apply fmap_app. Qed.

(** C3.  When the pool and the cache answer, [finished()] returns true
    exactly when the pool's [finished()] is true and the cache's
    [incoming_len()] is 0. *)
Theorem finished_iff (w : World) :
  quiet w →
  ∃ b w', finished w = (Ok b, w') ∧
    (b = true ↔
       finished_at (_threader w) (finished_asked (_threader w)) = true ∧
       incoming_len_at (_cache w) (len_asked (_cache w)) = 0).
Proof.
  intros Hq. unfold finished, synchronized, Threader.finished.
  quiet_step Hq. cbn [_threader record set_threader].
  destruct (finished_at _ _).
  - unfold CacheObj.incoming_len. quiet_step Hq.
    cbn [_cache record set_threader]. unfold ret.
    do 2 eexists. split; [done|]. rewrite Z.eqb_eq. tauto.
  - unfold ret. do 2 eexists. split; [done|]. split; [done | by intros [? _]].
Qed.

Lemma finished_iff_witness :
  ∃ b w', finished (world_of idle_env) = (Ok b, w') ∧
    (b = true ↔ true = true ∧ 0 = 0).
Proof. apply (finished_iff (world_of idle_env)). intros t. reflexivity. Defined.

(** C6.  When the cache and the loggers answer, [append_url] asks the
    cache to admit the item and does nothing else if it is admitted.  If
    it is not admitted, the item is logged once, at once: the counter
    goes up by one and each logger is called once; no thread is started
    and no other cache operation is made. *)
Theorem append_url_logs_rejected (u : UrlData) (w : World) :
  quiet w →
  let added := incoming_add_at (_cache w) (add_asked (_cache w)) in
  ∃ w', append_url u w = (Ok (), w') ∧
    _number w' = (if added then _number w else _number w + 1) ∧
    events (news w w') =
      [Acquire; Called (CacheIncomingAdd u) (Bool added)] ++
      (if added then [] else log_block (_config w) u (do_print (_config w) u)) ++
      [Release].
Proof.
  intros Hq added. unfold append_url, synchronized, CacheObj.incoming_add.
  quiet_step Hq. cbn [_cache record set_cache]. fold added.
  destruct added; cbn [negb].
  - unfold ret. eexists. split; [done|]. split; [done|].
    unfold news. cbn [trace record set_cache]. rewrite <- !app_assoc.
    by rewrite drop_app_length.
  - rewrite _log_url_quiet by exact Hq. eexists. split; [done|].
    cbn [_config record set_cache]. split.
    + cbn [_number record]. by rewrite (proj1 (records_fields _ _)).
    + unfold news. cbn [trace record]. rewrite records_trace.
      cbn [trace bump set_number snd record set_cache _number].
      rewrite <- !app_assoc, drop_app_length, !events_app, events_entry_at.
      done.
Qed.

Lemma append_url_logs_rejected_witness :
  ∃ w', append_url item_A (exec (append_url item_A) (world_of idle_env)) = (Ok (), w') ∧
    _number w' = 1 ∧
    events (news (exec (append_url item_A) (world_of idle_env)) w') =
      [Acquire; Called (CacheIncomingAdd item_A) (Bool false);
       Called (LogFilterUrl "text" item_A true) Done;
       Called (LogFilterUrl "html" item_A true) Done;
       Called (LogFilterUrl "csv" item_A true) Done;
       Release].
Proof.
  apply (append_url_logs_rejected item_A (exec (append_url item_A) (world_of idle_env))).
  intros t. reflexivity.
Defined.

(** C5.  When the loggers and the cache answer, [checked] makes exactly
    one cache operation: [checked_add] if the item has [caching] set and
    [cached] unset, and [in_progress_remove] otherwise. *)
Theorem checked_one_cache_operation (u : UrlData) (w : World) :
  quiet w →
  let op := if caching u && negb (cached u) then CacheCheckedAdd u
            else CacheInProgressRemove u false in
  ∃ w', checked u w = (Ok (), w') ∧
    events (news w w') =
      [Acquire] ++ log_block (_config w) u (do_print (_config w) u) ++
      [Called op Done; Release] ∧
    cache_mutations (events (news w w')) = [op].
Proof.
  intros Hq op. unfold checked, synchronized. unfold bind.
  rewrite _log_url_quiet by exact Hq. cbn [_config record].
  assert (∀ c, procedure c (records (log_block (_config w) u (do_print (_config w) u))
                 (bump (record Acquire w))) =
               (Ok (), record (Called c Done) (records (log_block (_config w) u
                 (do_print (_config w) u)) (bump (record Acquire w))))) as Hc.
  { intros c. apply procedure_quiet. by apply quiet_records. }
  assert (∃ w', (if caching u && negb (cached u) then CacheObj.checked_add u
                 else CacheObj.in_progress_remove u false)
                (records (log_block (_config w) u (do_print (_config w) u))
                   (bump (record Acquire w))) = (Ok (), w') ∧
                w' = record (Called op Done) (records (log_block (_config w) u
                   (do_print (_config w) u)) (bump (record Acquire w)))) as (w1 & -> & ->).
  { unfold op, CacheObj.checked_add, CacheObj.in_progress_remove.
    destruct (caching u && negb (cached u)); rewrite Hc; eauto. }
  eexists. split; [done|].
  assert (events (news w (record Release (record (Called op Done)
            (records (log_block (_config w) u (do_print (_config w) u))
               (bump (record Acquire w)))))) =
          [Acquire] ++ log_block (_config w) u (do_print (_config w) u) ++
          [Called op Done; Release]) as ->.
  { unfold news. cbn [trace record]. rewrite records_trace.
    cbn [trace bump set_number snd record _number].
    rewrite <- !app_assoc, drop_app_length, !events_app, events_entry_at.
    done. }
  split; [done|].
  rewrite !cache_mutations_app, cache_mutations_log_block.
  unfold op. by destruct (caching u && negb (cached u)).
Qed.

Lemma checked_one_cache_operation_witness :
  ∃ w', checked item_A (world_of idle_env) = (Ok (), w') ∧
    events (news (world_of idle_env) w') =
      [Acquire;
       Called (LogFilterUrl "text" item_A true) Done;
       Called (LogFilterUrl "html" item_A true) Done;
       Called (LogFilterUrl "csv" item_A true) Done;
       Called (CacheCheckedAdd item_A) Done; Release] ∧
    cache_mutations (events (news (world_of idle_env) w')) = [CacheCheckedAdd item_A].
Proof.
  apply (checked_one_cache_operation item_A (world_of idle_env)).
  intros t. reflexivity.
Defined.

(** ** Relations kept by every execution *)

Section Obeys.
Context (R : World → World → Prop) `{!Invariant R}.

Lemma obeys_ret {A} (a : A) : obeys R (ret a).
Proof. intros w. reflexivity. Qed.

Lemma obeys_bind {A B} (m : M A) (k : A → M B) :
  obeys R m → (∀ a, obeys R (k a)) → obeys R (bind m k).
Proof.
  intros Hm Hk w. unfold bind. specialize (Hm w).
  destruct (m w) as [[a|e|] w1]; cbn [snd] in *; [|done..].
  etrans; [exact Hm | apply Hk].
Qed.

Lemma obeys_external {A} c show respond :
  admits R c →
  (∀ w, same_consumer w (snd (respond w))) →
  obeys R (@external A c show respond).
Proof.
  intros Hc Hr w. unfold external. destruct (fails_at w _).
  - apply Hc.
  - specialize (Hr w). destruct (respond w) as [a w1]. cbn [snd] in *.
    etrans; [by apply inv_collaborators | apply Hc].
Qed.

Lemma obeys_procedure c : admits R c → obeys R (procedure c).
Proof. intros Hc. by apply obeys_external. Qed.

Lemma obeys_for_each {A} (xs : list A) (body : A → M ()) :
  (∀ x, obeys R (body x)) → obeys R (for_each xs body).
Proof.
  intros Hb. induction xs as [|x xs IH]; simpl.
  - apply obeys_ret.
  - apply obeys_bind; [apply Hb | by intros _].
Qed.

Lemma obeys_synchronized {A} (body : M A) :
  obeys R body → obeys R (synchronized body).
Proof.
  intros Hb w. unfold synchronized. specialize (Hb (record Acquire w)).
  destruct (body _) as [r w1]. cbn [snd] in *.
  etrans; [apply inv_acquire|]. etrans; [exact Hb | apply inv_release].
Qed.

Lemma obeys_get_config : obeys R get_config.
Proof. intros w. reflexivity. Qed.

Lemma obeys_get_number : obeys R get_number.
Proof. intros w. reflexivity. Qed.

Lemma obeys_get_num_waited : obeys R get_num_waited.
Proof. intros w. unfold get_num_waited. destruct (num_waited w); reflexivity. Qed.

Lemma obeys_Threader_finished : admits R PoolFinished → obeys R Threader.finished.
Proof. intros H. by apply obeys_external. Qed.

Lemma obeys_Threader_active_threads :
  admits R PoolActiveThreads → obeys R Threader.active_threads.
Proof. intros H. by apply obeys_external. Qed.

Lemma obeys_incoming_len : admits R CacheIncomingLen → obeys R CacheObj.incoming_len.
Proof. intros H. by apply obeys_external. Qed.

Lemma obeys_incoming_add u :
  admits R (CacheIncomingAdd u) → obeys R (CacheObj.incoming_add u).
Proof. intros H. by apply obeys_external. Qed.
End Obeys.

Ltac obey :=
  repeat first
    [ apply obeys_ret | apply obeys_get_config | apply obeys_get_number
    | apply obeys_get_num_waited
    | apply obeys_bind | apply obeys_synchronized | apply obeys_for_each
    | apply obeys_Threader_finished | apply obeys_Threader_active_threads
    | apply obeys_incoming_len | apply obeys_incoming_add
    | apply obeys_procedure
    | match goal with |- obeys _ (if ?b then _ else _) => destruct b end
    | intro ].

(** *** The counter and the rejected admissions *)

Lemma rejections_app es1 es2 :
  rejections (es1 ++ es2) = (rejections es1 + rejections es2)%nat.
Proof. unfold rejections. by rewrite List.filter_app, length_app. Qed.

Lemma logged_trans k1 k2 w1 w2 w3 :
  logged k1 w1 w2 → logged k2 w2 w3 → logged (k1 + k2) w1 w3.
Proof.
  intros (n1 & Ht1 & Hn1) (n2 & Ht2 & Hn2). exists (n1 ++ n2). split.
  - by rewrite Ht2, Ht1, app_assoc.
  - rewrite rejections_app. lia.
Qed.

Lemma unlogged_logged w w' : unlogged w w' → logged 0 w w'.
Proof. intros (new & Ht & Hr & Hn). exists new. split; [done|]. lia. Qed.

Lemma unlogged_record e w :
  is_rejection (entry_at (_number w) e) = false → unlogged w (record e w).
Proof.
  intros He. eexists. split; [done|]. split; [|done].
  unfold rejections, entry_at in *. simpl. by rewrite He.
Qed.

#[export] Instance unlogged_invariant : Invariant unlogged.
Proof.
  split.
  - split.
    + intros w. exists []. by rewrite app_nil_r.
    + intros w1 w2 w3 (n1 & Ht1 & Hr1 & Hn1) (n2 & Ht2 & Hr2 & Hn2).
      exists (n1 ++ n2). rewrite rejections_app, Hr1, Hr2, Ht2, Ht1, app_assoc.
      split; [done|]. split; [done | congruence].
  - intros w w' (Hn & _ & _ & _ & Ht). exists [].
    by rewrite app_nil_r.
  - intros w. by apply unlogged_record.
  - intros w. by apply unlogged_record.
Qed.

Lemma unlogged_admits c : is_admission c = false → admits unlogged c.
Proof. intros Hc w a. apply unlogged_record. by destruct c. Qed.

Ltac solve_unlogged := obey; first [exact _ | by apply unlogged_admits].

Lemma _log_url_logged u w : logged 1 w (exec (_log_url u) w).
Proof.
  unfold exec, _log_url, get_number. unfold bind at 1 2. cbn [set_number].
  match goal with |- logged 1 _ (snd (?m ?w1)) =>
    assert (obeys unlogged m) as Hm by solve_unlogged;
    destruct (Hm w1) as (new & Ht & Hr & Hn) end.
  exists new. split; [done|]. rewrite Hn, Hr. cbn [_number]. lia.
Qed.

Lemma synchronized_logged {A} k (body : M A) :
  (∀ w, logged k w (exec body w)) → ∀ w, logged k w (exec (synchronized body) w).
Proof.
  intros Hb w. unfold exec, synchronized. specialize (Hb (record Acquire w)).
  unfold exec in Hb. destruct (body _) as [r w1]. cbn [snd] in *.
  replace k with (0 + (k + 0)) by lia.
  eapply logged_trans; [apply unlogged_logged, inv_acquire|].
  eapply logged_trans; [exact Hb | apply unlogged_logged, inv_release].
Qed.

Lemma log_url_logged u w : logged 1 w (exec (log_url u) w).
Proof. apply synchronized_logged. apply _log_url_logged. Qed.

Lemma checked_logged u w : logged 1 w (exec (checked u) w).
Proof.
  apply synchronized_logged. clear w. intros w. unfold exec, bind.
  pose proof (_log_url_logged u w) as H1. unfold exec in H1.
  destruct (_log_url u w) as [[[]|e|] w1]; cbn [snd] in *; [|done..].
  replace 1 with (1 + 0) by lia. eapply logged_trans; [exact H1|].
  apply unlogged_logged.
  assert (obeys unlogged (if caching u && negb (cached u)
    then CacheObj.checked_add u else CacheObj.in_progress_remove u false)) as H
    by solve_unlogged.
  apply H.
Qed.

Lemma append_url_logged u w : logged 0 w (exec (append_url u) w).
Proof.
  apply synchronized_logged. clear w. intros w.
  unfold exec, bind, CacheObj.incoming_add, external.
  destruct (fails_at w _); cbn [snd].
  - by apply unlogged_logged, unlogged_record.
  - cbn [_cache set_cache]. destruct (incoming_add_at _ _); cbn [negb].
    + apply unlogged_logged. etrans; [|by apply unlogged_record].
      by apply inv_collaborators.
    + match goal with |- logged 0 _ (snd (_log_url u ?w1)) =>
        pose proof (_log_url_logged u w1) as (new & Ht & Hn) end.
      unfold exec in Ht, Hn. eexists. split.
      * rewrite Ht. cbn [trace record set_cache]. by rewrite <- app_assoc.
      * rewrite Hn. cbn [_number record set_cache app].
        unfold rejections. cbn [List.filter is_rejection ev length]. lia.
Qed.

Lemma _log_url_number u w : _number (exec (_log_url u) w) = _number w + 1.
Proof.
  unfold exec, _log_url, get_number. unfold bind at 1 2. cbn [set_number].
  match goal with |- _number (snd (?m ?w1)) = _ =>
    assert (obeys unlogged m) as Hm by solve_unlogged;
    destruct (Hm w1) as (new & Ht & Hr & Hn) end.
  by rewrite Hn.
Qed.

(** *** Relations kept by the abort protocol *)

Section AbortObeys.
Context (R : World → World → Prop) `{!Invariant R}.
Hypothesis R_admits : ∀ c, is_admission c = false → admits R c.
Hypothesis R_num_waited : ∀ n, obeys R (set_num_waited n).

Local Ltac plain := obey; first [exact _ | by apply R_admits].

Lemma obeys_no_more_threads : obeys R no_more_threads.
Proof. unfold no_more_threads. plain. Qed.

Lemma obeys_active_threads : obeys R active_threads.
Proof. unfold active_threads. plain. Qed.

Lemma obeys_finish : obeys R finish.
Proof. unfold finish, Threader.finish. plain. Qed.

Lemma obeys_end_log_output : obeys R end_log_output.
Proof. unfold end_log_output, LoggerObj.end_output. plain. Qed.

Lemma obeys__abort_loop fuel : obeys R (_abort_loop fuel).
Proof.
  induction fuel as [|fuel IH]; [intros w; reflexivity|].
  cbn [_abort_loop]. apply (obeys_bind R); [apply obeys_no_more_threads|].
  intros [|]; [apply obeys_end_log_output|].
  apply (obeys_bind R); [apply (obeys_get_num_waited R)|]. intros n.
  destruct (30 <? n).
  - apply (obeys_bind R); [|intros _; apply obeys_end_log_output].
    by apply (obeys_procedure R), R_admits.
  - apply (obeys_bind R); [apply obeys_active_threads|]. intros num.
    apply (obeys_bind R); [by apply (obeys_procedure R), R_admits|].
    intros _. apply (obeys_bind R); [apply obeys_finish|]. intros _.
    apply (obeys_bind R); [apply (obeys_get_num_waited R)|]. intros n'.
    apply (obeys_bind R); [apply R_num_waited|]. intros _.
    apply (obeys_bind R); [by apply (obeys_procedure R), R_admits|].
    intros _. apply IH.
Qed.

Lemma obeys__abort : obeys R _abort.
Proof. intros w. apply obeys__abort_loop. Qed.

Lemma obeys_abort_retry fuel : obeys R (abort_retry fuel).
Proof.
  induction fuel as [|fuel IH]; intros w; [reflexivity|].
  cbn [abort_retry]. pose proof (obeys__abort w) as H.
  destruct (_abort w) as [[[]|[| |what]|] w1]; cbn [snd] in *; try done.
  - etrans; [exact H | apply IH].
  - etrans; [exact H | apply IH].
Qed.

Lemma obeys_abort fuel : obeys R (abort fuel).
Proof.
  unfold abort. apply (obeys_bind R); [apply R_num_waited|].
  intros _. apply obeys_abort_retry.
Qed.
End AbortObeys.

Lemma unlogged_set_num_waited n : obeys unlogged (set_num_waited n).
Proof. intros w. exists []. by rewrite app_nil_r. Qed.

(** *** Sequences of operations *)

Lemma run_op_logged op w : logged (logs op) w (run_op op w).
Proof.
  destruct op; cbn [run_op logs];
    try apply checked_logged; try apply log_url_logged;
    try apply append_url_logged; apply unlogged_logged.
  - unfold exec, config_append, synchronized. destruct (decide _); cbn [snd].
    + exists [entry_at (_number w) Acquire; entry_at (_number w) Release].
      cbn [trace record _number]. by rewrite <- app_assoc.
    + destruct (decide _); cbn [snd];
        (etrans; [apply inv_acquire | apply inv_release]).
  - assert (obeys unlogged (check_url u name)) as H; [|apply H].
    unfold check_url, Threader.start_thread. solve_unlogged.
  - assert (obeys unlogged (interrupted u)) as H; [|apply H].
    unfold interrupted, CacheObj.in_progress_remove. solve_unlogged.
  - assert (obeys unlogged finished) as H; [|apply H].
    unfold finished. solve_unlogged.
  - apply (obeys_finish unlogged unlogged_admits).
  - apply (obeys_no_more_threads unlogged unlogged_admits).
  - apply (obeys_abort unlogged unlogged_admits unlogged_set_num_waited).
  - assert (obeys unlogged (print_status curtime start_time)) as H; [|apply H].
    unfold print_status. solve_unlogged.
  - assert (obeys unlogged start_log_output) as H; [|apply H].
    unfold start_log_output, LoggerObj.start_output. solve_unlogged.
  - apply (obeys_end_log_output unlogged unlogged_admits).
  - apply (obeys_active_threads unlogged unlogged_admits).
Qed.

Lemma run_ops_logged ops w :
  logged (Z.of_nat (checked_calls ops) + Z.of_nat (log_url_calls ops)) w (run_ops ops w).
Proof.
  revert w. induction ops as [|op ops IH]; intros w.
  - exists []. cbn. rewrite app_nil_r. split; [done | lia].
  - cbn [run_ops foldl]. pose proof (run_op_logged op w) as H1.
    specialize (IH (run_op op w)).
    pose proof (logged_trans _ _ _ _ _ H1 IH) as H.
    replace (Z.of_nat (checked_calls (op :: ops)) + Z.of_nat (log_url_calls (op :: ops)))
      with (logs op + (Z.of_nat (checked_calls ops) + Z.of_nat (log_url_calls ops)));
      [exact H|].
    unfold checked_calls, log_url_calls. destruct op; cbn [List.filter logs length]; lia.
Qed.

(** C8, as amended.  Every run of [_log_url] adds exactly one to the
    counter; no operation of the consumer lowers it; and after any
    sequence of operations the counter has grown by the number of
    [checked()] calls, plus the number of [log_url()] calls, plus the
    number of [append_url()] calls whose admission was rejected. *)
Theorem counter_accounting :
  (∀ u w, _number (exec (_log_url u) w) = _number w + 1) ∧
  (∀ op w, _number w ≤ _number (run_op op w)) ∧
  (∀ ops w,
     _number (run_ops ops w) =
       _number w + Z.of_nat (checked_calls ops) + Z.of_nat (log_url_calls ops) +
       Z.of_nat (rejections (news w (run_ops ops w)))).
Proof.
  split; [apply _log_url_number|]. split.
  - intros op w. destruct (run_op_logged op w) as (new & _ & Hn).
    rewrite Hn. destruct op; cbn [logs]; lia.
  - intros ops w. destruct (run_ops_logged ops w) as (new & Ht & Hn).
    rewrite (news_app _ _ _ Ht). lia.
Qed.

(** The counter also counts the calls of the public [log_url]: after
    construction and one [log_url()] the counter is 1, with no
    [checked()] call and no rejected admission. *)
Lemma counter_counts_log_url :
  let w0 := snd (__init__ idle_env example_config example_cache) in
  let ops := [OpLogUrl item_B] in
  _number w0 = 0 ∧
  ¬ (_number (run_ops ops w0) =
       Z.of_nat (checked_calls ops) +
       Z.of_nat (rejections (news w0 (run_ops ops w0)))).
Proof. split; [reflexivity|]. vm_compute. intros [=]. Qed.

(** *** The order of logging and cache update in [checked] *)

#[export] Instance cache_untouched_invariant : Invariant cache_untouched.
Proof.
  split.
  - split.
    + intros w. exists []. by rewrite app_nil_r.
    + intros w1 w2 w3 (n1 & Ht1 & H1) (n2 & Ht2 & H2). exists (n1 ++ n2).
      split; [by rewrite Ht2, Ht1, app_assoc | by apply Forall_app].
  - intros w w' (_ & _ & _ & _ & Ht). exists []. by rewrite app_nil_r.
  - intros w. exists [entry_at (_number w) Acquire]. split; [done|].
    by repeat constructor.
  - intros w. exists [entry_at (_number w) Release]. split; [done|].
    by repeat constructor.
Qed.

Lemma _log_url_cache_untouched u : obeys cache_untouched (_log_url u).
Proof.
  intros w. unfold _log_url, get_number. unfold bind at 1 2. cbn [set_number].
  match goal with |- cache_untouched _ (snd (?m ?w1)) =>
    assert (obeys cache_untouched m) as Hm; [|apply (Hm w1)] end.
  obey; first [exact _ | eexists; split; [done|]; by repeat constructor].
Qed.

Lemma _log_url_Ok u w w' :
  _log_url u w = (Ok (), w') →
  w' = records (log_block (_config w) u (do_print (_config w) u)) (bump w).
Proof.
  unfold _log_url, get_number, get_config, LoggerObj.log_filter_url.
  unfold bind at 1 2 3. cbn [set_number _config]. intros H.
  apply bind_Ok in H as ([] & w1 & H1 & H2).
  apply procedure_Ok in H1 as ->.
  apply (for_each_Ok (λ l, LogFilterUrl l u _)) in H2 as ->. done.
Qed.

Lemma procedure_snd c w : ∃ a, snd (procedure c w) = record (Called c a) w.
Proof.
  unfold procedure, external. destruct (fails_at w _); cbn [snd]; eauto.
Qed.

Lemma log_block_no_mutation cfg u print :
  Forall (λ e, cache_mutation e = None) (log_block cfg u print).
Proof.
  unfold log_block. apply Forall_fmap, Forall_forall. by intros l _.
Qed.

Lemma locked_cache_untouched w w1 i m :
  cache_untouched (record Acquire w) w1 →
  news w (record Release w1) !! i = Some m →
  cache_mutation (ev m) = None.
Proof.
  intros (L & Ht & HL) Hi. cbn [trace record] in Ht.
  assert (news w (record Release w1) =
          [entry_at (_number w) Acquire] ++ L ++ [entry_at (_number w1) Release]) as Hn.
  { apply news_app. cbn [trace record]. rewrite Ht. by rewrite <- !app_assoc. }
  rewrite Hn in Hi.
  assert (Forall (λ e, cache_mutation (ev e) = None)
            ([entry_at (_number w) Acquire] ++ L ++ [entry_at (_number w1) Release])) as HF.
  { apply Forall_app. split; [by repeat constructor|].
    apply Forall_app. split; [done | by repeat constructor]. }
  rewrite Forall_lookup in HF. by apply (HF _ _ Hi).
Qed.

(** C4.  Whenever a run of [checked] reaches a cache update, what it did
    before is: take the lock and call every logger for the item.  The
    counter already includes the item at that point, and no logger is
    called for it afterwards. *)
Theorem checked_logs_before_cache (u : UrlData) (w : World) (i : nat) (m : Entry) :
  let new := news w (exec (checked u) w) in
  new !! i = Some m →
  is_Some (cache_mutation (ev m)) →
  events (take i new) =
    [Acquire] ++ log_block (_config w) u (do_print (_config w) u) ∧
  at_number m = _number w + 1 ∧
  (∀ j l, new !! j = Some l → is_log_emission (ev l) = true → (j < i)%nat).
Proof.
  intros new. subst new. unfold exec, checked, synchronized, bind.
  destruct (_log_url u (record Acquire w)) as [[[]|e|] w1] eqn:E.
  - apply _log_url_Ok in E. cbn [_config record] in E.
    set (blk := log_block (_config w) u (do_print (_config w) u)) in *.
    set (op := if caching u && negb (cached u) then CacheCheckedAdd u
               else CacheInProgressRemove u false).
    assert (∃ a, snd ((if caching u && negb (cached u) then CacheObj.checked_add u
                       else CacheObj.in_progress_remove u false) w1) =
                 record (Called op a) w1) as [a Ha].
    { unfold op, CacheObj.checked_add, CacheObj.in_progress_remove.
      destruct (caching u && negb (cached u)); apply procedure_snd. }
    destruct ((if caching u && negb (cached u) then CacheObj.checked_add u
               else CacheObj.in_progress_remove u false) w1) as [r w2].
    cbn [snd] in *. subst w2 w1.
    set (pre := entry_at (_number w) Acquire :: (entry_at (_number w + 1) <$> blk)).
    set (mu := entry_at (_number w + 1) (Called op a)).
    assert (news w (record Release (record (Called op a)
              (records blk (bump (record Acquire w))))) =
            pre ++ [mu; entry_at (_number w + 1) Release]) as ->.
    { apply news_app. cbn [trace record]. rewrite records_trace.
      cbn [trace bump set_number snd record _number]. rewrite !records_number.
      cbn [_number]. by rewrite <- !app_assoc. }
    assert (Forall (λ e, cache_mutation (ev e) = None) pre) as Hpre.
    { constructor; [done|]. apply Forall_fmap.
      eapply Forall_impl; [apply log_block_no_mutation|]. done. }
    intros Hi Hm.
    assert (i = length pre ∧ m = mu) as [-> ->].
    { apply lookup_app_Some in Hi as [Hi|[Hle Hi]].
      - rewrite Forall_lookup in Hpre. rewrite (Hpre _ _ Hi) in Hm.
        by destruct Hm.
      - destruct (i - length pre)%nat as [|[|k]] eqn:Hk; simplify_eq/=.
        + split; [lia | done].
        + by destruct Hm. }
    split; [|split; [done|]].
    + rewrite take_app_length. unfold pre.
      change (events (entry_at (_number w) Acquire :: (entry_at (_number w + 1) <$> blk)))
        with (Acquire :: events (entry_at (_number w + 1) <$> blk)).
      by rewrite events_entry_at.
    + intros j l Hj Hl. apply lookup_app_Some in Hj as [Hj|[Hle Hj]].
      * by apply lookup_lt_Some in Hj.
      * destruct (j - length pre)%nat as [|[|k]] eqn:Hk; simplify_eq/=.
        unfold op in Hl. by destruct (caching u && negb (cached u)).
  - pose proof (_log_url_cache_untouched u (record Acquire w)) as H.
    rewrite E in H. cbn [snd]. intros Hi [c Hm].
    by rewrite (locked_cache_untouched _ _ _ _ H Hi) in Hm.
  - pose proof (_log_url_cache_untouched u (record Acquire w)) as H.
    rewrite E in H. cbn [snd]. intros Hi [c Hm].
    by rewrite (locked_cache_untouched _ _ _ _ H Hi) in Hm.
Qed.

Lemma checked_logs_before_cache_witness :
  let w := world_of idle_env in
  let m := {| ev := Called (CacheCheckedAdd item_A) Done; at_number := 1 |} in
  let new := news w (exec (checked item_A) w) in
  events (take 4 new) =
    [Acquire] ++ log_block (_config w) item_A (do_print (_config w) item_A) ∧
  at_number m = _number w + 1 ∧
  (∀ j l, new !! j = Some l → is_log_emission (ev l) = true → (j < 4)%nat).
Proof.
  apply (checked_logs_before_cache item_A (world_of idle_env) 4
           {| ev := Called (CacheCheckedAdd item_A) Done; at_number := 1 |}).
  - reflexivity.
  - by eexists.
Defined.

(** *** Where the status queries happen *)

(** C2.  [finished()] and [print_status()] are synchronized methods:
    the lock is taken first, and the pool and the cache are queried while
    it is held.  Here on an idle pool and an empty queue. *)
Theorem status_queries_inside_lock :
  events (trace (exec finished (world_of idle_env))) =
    [Acquire; Called PoolFinished (Bool true); Called CacheIncomingLen (Int 0);
     Release] ∧
  events (trace (exec (print_status 5 2) (world_of idle_env))) =
    [Acquire; Called (Stderr MsgStatus) Done;
     Called PoolActiveThreads (Int 0); Called (Stderr (MsgActive 0)) Done;
     Called (Stderr (MsgLinks 0)) Done;
     Called CacheIncomingLen (Int 0); Called (Stderr (MsgTocheck 0)) Done;
     Called (Stderr (MsgDuration 3)) Done; Called (Stderr MsgNewline) Done;
     Release].
Proof. split; reflexivity. Qed.

(** In every world, whatever the collaborators do, everything a
    synchronized method does lies between taking and releasing the lock;
    so does the pool query of [finished()]. *)
Lemma synchronized_brackets {A} (body : M A) w :
  obeys unlogged body →
  ∃ mid, events (news w (exec (synchronized body) w)) = [Acquire] ++ mid ++ [Release].
Proof.
  intros Hb. unfold exec, synchronized.
  destruct (Hb (record Acquire w)) as (new & Ht & _).
  destruct (body _) as [r w1]. cbn [snd trace record] in *.
  exists (events new). erewrite news_app.
  2: { cbn [trace record]. rewrite Ht. by rewrite <- !app_assoc. }
  by rewrite !events_app.
Qed.

Lemma status_checks_hold_lock w curtime start_time :
  (∃ a rest, events (news w (exec finished w)) =
               [Acquire; Called PoolFinished a] ++ rest ++ [Release]) ∧
  (∃ mid, events (news w (exec (print_status curtime start_time) w)) =
            [Acquire] ++ mid ++ [Release]).
Proof.
  split.
  - unfold exec, finished, synchronized, Threader.finished, external.
    unfold bind at 1. cbn [trace record]. destruct (fails_at _ _) as [x|].
    + exists (Raised x), []. cbn [snd]. erewrite news_app; [|cbn [trace record];
        by rewrite <- !app_assoc]. done.
    + cbn [_threader record set_threader].
      match goal with |- context [if ?b then _ else _] => destruct b eqn:Hb end.
      * assert (obeys unlogged (n ← CacheObj.incoming_len; ret (n =? 0))) as Hk
          by solve_unlogged.
        match goal with |- context [bind _ _ ?w1] =>
          destruct (Hk w1) as (new & Ht & _) end. unfold bind in *.
        destruct (CacheObj.incoming_len _) as [[n|e|] w2];
          cbn [snd trace record set_threader ret] in *;
          exists (Bool true), (events new);
          (erewrite news_app; [|cbn [trace record]; rewrite Ht;
             by rewrite <- !app_assoc]);
          by rewrite !events_app.
      * exists (Bool false), []. cbn [snd ret].
        erewrite news_app; [|cbn [trace record set_threader];
          by rewrite <- !app_assoc]. done.
  - apply synchronized_brackets. solve_unlogged.
Qed.

(** ** The abort loop when nothing raises *)

Lemma count_app P es1 es2 : count P (es1 ++ es2) = (count P es1 + count P es2)%nat.
Proof. unfold count. by rewrite List.filter_app, length_app. Qed.

Lemma rounds_counts active from k :
  count is_pass (rounds active from k) = k ∧
  count is_wait (rounds active from k) = k ∧
  count is_timeout (rounds active from k) = 0%nat ∧
  ended (rounds active from k) = [].
Proof.
  revert from. induction k as [|k IH]; intros from; [done|].
  destruct (IH (S from)) as (H1 & H2 & H3 & H4). cbn [rounds].
  unfold ended in *. rewrite !count_app, omap_app, H1, H2, H3, H4. done.
Qed.

Lemma end_block_counts cfg :
  count is_pass (end_block cfg) = 0%nat ∧
  count is_wait (end_block cfg) = 0%nat ∧
  count is_timeout (end_block cfg) = 0%nat ∧
  ended (end_block cfg) = cfg_logger cfg :: cfg_fileoutput cfg.
Proof.
  unfold end_block. generalize (cfg_logger cfg :: cfg_fileoutput cfg).
  intros ls. unfold ended. rewrite !count_app, !omap_app. cbn.
  induction ls as [|l ls (H1 & H2 & H3 & H4)]; [done|].
  cbn. rewrite !Nat.add_0_r in *. repeat split; try done.
  rewrite app_nil_r in *. by f_equal.
Qed.

(** The world after one full pass from [w]. *)
Lemma wait_round_quiet fuel w n :
  quiet w →
  num_waited w = Some n →
  n ≤ 30 →
  finished_at (_threader w) (finished_asked (_threader w)) = false →
  ∃ w1, _abort_loop (S fuel) w = _abort_loop fuel w1 ∧
    quiet w1 ∧ num_waited w1 = Some (n + 1) ∧
    _config w1 = _config w ∧ _number w1 = _number w ∧
    finished_at (_threader w1) = finished_at (_threader w) ∧
    finished_asked (_threader w1) = S (finished_asked (_threader w)) ∧
    active_at (_threader w1) = active_at (_threader w) ∧
    active_asked (_threader w1) = S (active_asked (_threader w)) ∧
    trace w1 = trace w ++
      (entry_at (_number w) <$>
         round_events (active_at (_threader w) (active_asked (_threader w)))).
Proof.
  intros Hq Hn Hle Hf. cbn [_abort_loop].
  unfold no_more_threads, active_threads, finish, synchronized,
    Threader.finished, Threader.active_threads, Threader.finish.
  quiet_step Hq. cbn [_threader record set_threader]. rewrite Hf.
  unfold get_num_waited at 1. cbn [num_waited record set_threader]. rewrite Hn.
  replace (30 <? n) with false by (symmetry; apply Z.ltb_ge; lia).
  do 3 quiet_step Hq. cbn [_threader record set_threader].
  unfold get_num_waited, set_num_waited. cbn [num_waited record set_threader].
  rewrite Hn. quiet_step Hq.
  eexists. split; [reflexivity|].
  cbn [num_waited _config _number _threader trace record set_threader
       finished_at finished_asked active_at active_asked].
  repeat split; try done. by rewrite <- !app_assoc.
Qed.

Lemma wait_rounds_quiet j :
  ∀ fuel w n,
  quiet w →
  num_waited w = Some n →
  n + Z.of_nat j ≤ 31 →
  (∀ i, (i < j)%nat →
     finished_at (_threader w) (finished_asked (_threader w) + i) = false) →
  ∃ wj, _abort_loop (j + fuel) w = _abort_loop fuel wj ∧
    quiet wj ∧ num_waited wj = Some (n + Z.of_nat j) ∧
    _config wj = _config w ∧ _number wj = _number w ∧
    finished_at (_threader wj) = finished_at (_threader w) ∧
    finished_asked (_threader wj) = (finished_asked (_threader w) + j)%nat ∧
    trace wj = trace w ++
      (entry_at (_number w) <$>
         rounds (active_at (_threader w)) (active_asked (_threader w)) j).
Proof.
  induction j as [|j IH]; intros fuel w n Hq Hn Hle Hf.
  - exists w. cbn [rounds fmap list_fmap]. rewrite app_nil_r, Z.add_0_r, Nat.add_0_r.
    done.
  - destruct (wait_round_quiet (j + fuel) w n Hq Hn) as
      (w1 & Hrun & Hq1 & Hn1 & Hc1 & Hm1 & Hfa1 & Hfq1 & Haa1 & Haq1 & Ht1).
    { lia. }
    { rewrite <- (Nat.add_0_r (finished_asked _)). apply Hf. lia. }
    destruct (IH fuel w1 (n + 1) Hq1 Hn1) as
      (wj & Hrunj & Hqj & Hnj & Hcj & Hmj & Hfaj & Hfqj & Htj).
    { lia. }
    { intros i Hi. rewrite Hfa1, Hfq1.
      replace (S (finished_asked (_threader w)) + i)%nat
        with (finished_asked (_threader w) + S i)%nat by lia.
      apply Hf. lia. }
    exists wj. split; [by rewrite <- Hrunj, <- Hrun|].
    split; [done|]. split; [rewrite Hnj; f_equal; lia|].
    split; [congruence|]. split; [congruence|]. split; [congruence|].
    split; [rewrite Hfqj, Hfq1; lia|].
    rewrite Htj, Ht1, Hm1, Haa1, Haq1. cbn [rounds].
    by rewrite fmap_app, <- app_assoc.
Qed.

Lemma abort_loop_finished fuel w :
  quiet w →
  finished_at (_threader w) (finished_asked (_threader w)) = true →
  ∃ w', _abort_loop (S fuel) w = (Ok (), w') ∧
    trace w' = trace w ++
      (entry_at (_number w) <$>
         [Acquire; Called PoolFinished (Bool true); Release] ++ end_block (_config w)).
Proof.
  intros Hq Hf. cbn [_abort_loop].
  unfold no_more_threads, synchronized, Threader.finished.
  quiet_step Hq. cbn [_threader record set_threader]. rewrite Hf.
  rewrite end_log_output_quiet by exact Hq.
  eexists. split; [done|]. rewrite records_trace.
  cbn [trace _config _number record set_threader].
  by rewrite fmap_app, <- !app_assoc.
Qed.

Lemma abort_loop_timeout fuel w n :
  quiet w →
  num_waited w = Some n →
  30 < n →
  finished_at (_threader w) (finished_asked (_threader w)) = false →
  ∃ w', _abort_loop (S fuel) w = (Ok (), w') ∧
    trace w' = trace w ++
      (entry_at (_number w) <$>
         [Acquire; Called PoolFinished (Bool false); Release;
          Called (LogError "Thread wait timeout") Done] ++ end_block (_config w)).
Proof.
  intros Hq Hn Hlt Hf. cbn [_abort_loop].
  unfold no_more_threads, synchronized, Threader.finished.
  quiet_step Hq. cbn [_threader record set_threader]. rewrite Hf.
  unfold get_num_waited. cbn [num_waited record set_threader]. rewrite Hn.
  replace (30 <? n) with true by (symmetry; apply Z.ltb_lt; lia).
  quiet_step Hq. rewrite end_log_output_quiet by exact Hq.
  eexists. split; [done|]. rewrite records_trace.
  cbn [trace _config _number record set_threader].
  by rewrite fmap_app, <- !app_assoc.
Qed.

Lemma abort_quiet (w : World) (k fuel : nat) :
  quiet w →
  (k ≤ 32)%nat →
  (∀ i, (i < k)%nat →
     finished_at (_threader w) (finished_asked (_threader w) + i) = false) →
  ((k < 32)%nat →
     finished_at (_threader w) (finished_asked (_threader w) + k) = true) →
  ∃ w', abort (S fuel) w = (Ok (), w') ∧
    events (news w w') =
      abort_events (_config w) (active_at (_threader w)) (active_asked (_threader w)) k.
Proof.
  intros Hq Hk Hbusy Hdone. unfold abort, bind. cbn [set_num_waited abort_retry].
  set (w0 := {| _number := _number w; num_waited := Some 0; _config := _config w;
                _threader := _threader w; _cache := _cache w;
                fails_at := fails_at w; trace := trace w |}).
  assert (quiet w0) as Hq0 by exact Hq.
  unfold _abort. change (passes_left w0) with 32%nat.
  destruct (decide (k = 32%nat)) as [->|Hne].
  - destruct (wait_rounds_quiet 31 1 w0 0 Hq0 eq_refl) as
      (wj & Hrun & Hqj & Hnj & Hcj & Hmj & Hfaj & Hfqj & Htj).
    { lia. } { intros i Hi. apply Hbusy. lia. }
    change (31 + 1)%nat with 32%nat in Hrun. rewrite Hrun.
    destruct (abort_loop_timeout 0 wj _ Hqj Hnj) as (w' & -> & Ht); [lia| |].
    { rewrite Hfaj, Hfqj. apply Hbusy. lia. }
    exists w'. split; [done|].
    erewrite news_app; [|rewrite Ht, Htj, Hmj, Hcj; cbn [trace w0 _number _config];
                         by rewrite <- app_assoc, <- fmap_app].
    rewrite events_entry_at. unfold abort_events. by rewrite decide_True.
  - destruct (wait_rounds_quiet k (32 - k) w0 0 Hq0 eq_refl) as
      (wj & Hrun & Hqj & Hnj & Hcj & Hmj & Hfaj & Hfqj & Htj).
    { lia. } { intros i Hi. by apply Hbusy. }
    replace (k + (32 - k))%nat with 32%nat in Hrun by lia. rewrite Hrun.
    destruct (32 - k)%nat as [|rest] eqn:Hrest; [lia|].
    destruct (abort_loop_finished rest wj Hqj) as (w' & -> & Ht).
    { rewrite Hfaj, Hfqj. apply Hdone. lia. }
    exists w'. split; [done|].
    erewrite news_app; [|rewrite Ht, Htj, Hmj, Hcj; cbn [trace w0 _number _config];
                         by rewrite <- app_assoc, <- fmap_app].
    rewrite events_entry_at. unfold abort_events. rewrite decide_False by done.
    by rewrite Nat.min_l by lia.
Qed.

(** C1, as amended.  Let the pool answer [finished()] with false [k]
    times.  If it never finishes ([k = 32] covers every answer the loop
    asks for), [abort] goes through the loop 32 times: 31 waits and then
    the timeout test, which logs the error; if the pool finishes after
    [k ≤ 31] passes, [abort] leaves the loop after [k] waits without the
    error.  In both cases [end_output()] is called once on each logger,
    as the last thing [abort] does. *)
Theorem abort_wait_bound (w : World) (k fuel : nat) :
  quiet w →
  (k ≤ 32)%nat →
  (∀ i, (i < k)%nat →
     finished_at (_threader w) (finished_asked (_threader w) + i) = false) →
  ((k < 32)%nat →
     finished_at (_threader w) (finished_asked (_threader w) + k) = true) →
  ∃ w', abort (S fuel) w = (Ok (), w') ∧
    let new := events (news w w') in
    count is_pass new = k ∧
    count is_wait new = (k `min` 31)%nat ∧
    count is_timeout new = (if decide (k = 32%nat) then 1%nat else 0%nat) ∧
    ended new = cfg_logger (_config w) :: cfg_fileoutput (_config w) ∧
    ∃ before, new = before ++ end_block (_config w).
Proof.
  intros Hq Hk Hbusy Hdone.
  destruct (abort_quiet w k fuel Hq Hk Hbusy Hdone) as (w' & Hrun & Hnew).
  exists w'. split; [done|]. cbn zeta. rewrite Hnew. unfold abort_events.
  destruct (rounds_counts (active_at (_threader w)) (active_asked (_threader w))
              (k `min` 31)) as (Hp & Hw & Ht & He).
  destruct (end_block_counts (_config w)) as (Hp' & Hw' & Ht' & He').
  unfold ended in *.
  rewrite !count_app, !omap_app, Hp, Hw, Ht, He, Hp', Hw', Ht', He'.
  assert (∀ A B C D : Prop, A ∧ B ∧ C ∧ D → ∀ E : Prop, E → A ∧ B ∧ C ∧ D ∧ E)
    as Hsplit by tauto.
  apply Hsplit; [|eexists; by rewrite app_assoc].
  destruct (decide (k = 32%nat)) as [->|Hne]; cbn; repeat split; lia.
Qed.

Lemma abort_wait_bound_witness :
  ∃ w', abort 1 (world_of busy_env) = (Ok (), w') ∧
    let new := events (news (world_of busy_env) w') in
    count is_pass new = 32%nat ∧
    count is_wait new = 31%nat ∧
    count is_timeout new = 1%nat ∧
    ended new = ["text"; "html"; "csv"]%string ∧
    ∃ before, new = before ++ end_block example_config.
Proof.
  apply (abort_wait_bound (world_of busy_env) 32 0).
  - intros t. reflexivity.
  - lia.
  - intros i Hi. reflexivity.
  - lia.
Defined.

(** On a pool that never finishes, [abort] makes 32 passes and 31 waits,
    not 31 and 30. *)
Lemma abort_never_finishing_passes :
  let w := world_of busy_env in
  let new := events (news w (exec (abort 1) w)) in
  fst (abort 1 w) = Ok () ∧
  count is_pass new = 32%nat ∧ count is_wait new = 31%nat ∧
  ¬ (count is_pass new = 31%nat) ∧ ¬ (count is_wait new = 30%nat).
Proof. vm_compute. repeat split; intros [=]. Qed.

(** ** Interrupts during abort *)


























(** *** The shape of interrupted runs *)

























Example abort_in_a_storm :
  fst (abort 3 (world_of stormy_env)) = Ok () ∧
  events (trace (exec (abort 3) (world_of stormy_env))) =
    [Acquire; Called PoolFinished (Bool false); Release;
     Acquire; Called PoolActiveThreads (Int 1); Release;
     Called (LogWarn "keyboard interrupt; waiting for %d active thread to finish" 1) Done;
     Acquire; Called PoolFinish Done; Release;
     Called (Sleep 2) (Raised KeyboardInterrupt);
     Acquire; Called PoolFinished (Bool true); Release;
     Acquire; Called (EndOutput "text") Done;
     Called (EndOutput "html") (Raised SystemExit); Release;
     Acquire; Called PoolFinished (Bool true); Release;
     Acquire; Called (EndOutput "text") Done; Called (EndOutput "html") Done;
     Called (EndOutput "csv") Done; Release].
Proof. split; reflexivity. Qed.


(** ** Relations kept by computations: a second look *)

Lemma lock_scan_app h es1 es2 :
  lock_scan h (es1 ++ es2) =
    match lock_scan h es1 with
    | Some h' => lock_scan h' es2
    | None => None
    end.
Proof.
  revert h. induction es1 as [|[| |c a] es1 IH]; intros h; cbn [lock_scan app].
  - done.
  - destruct h; [done | apply IH].
  - destruct h; [apply IH | done].
  - destruct (Bool.eqb _ _); [apply IH | done].
Qed.

#[export] Instance Forall_closed {P : Entry → Prop} : Closed (Forall P).
Proof. split; [constructor | intros a b Ha Hb; by apply Forall_app]. Qed.

#[export] Instance no_log_emission_closed : Closed no_log_emission.
Proof. apply Forall_closed. Qed.

#[export] Instance abort_calls_only_closed : Closed abort_calls_only.
Proof. apply Forall_closed. Qed.

#[export] Instance no_sleep_closed : Closed no_sleep.
Proof.
  split; [done|]. unfold no_sleep. intros a b Ha Hb.
  by rewrite events_app, count_app, Ha, Hb.
Qed.

#[export] Instance lock_kept_closed h : Closed (lock_kept h).
Proof.
  split; [done|]. unfold lock_kept. intros a b Ha Hb.
  by rewrite events_app, lock_scan_app, Ha.
Qed.

#[export] Instance any_world_preorder : PreOrder any_world.
Proof. by split. Qed.

#[export] Instance same_number_preorder : PreOrder same_number.
Proof. split; [done|]. unfold same_number. intros x y z. congruence. Qed.

#[export] Instance same_num_waited_preorder : PreOrder same_num_waited.
Proof. split; [done|]. unfold same_num_waited. intros x y z. congruence. Qed.

#[export] Instance same_crawl_preorder : PreOrder same_crawl.
Proof.
  split; [done|]. intros x y z (? & ? & ?) (? & ? & ?).
  repeat split; congruence.
Qed.

#[export] Instance adding_preorder P Q `{!Closed P, !PreOrder Q} :
  PreOrder (adding P Q).
Proof.
  split.
  - intros w. exists []. rewrite app_nil_r. split; [done|].
    split; [apply closed_nil | reflexivity].
  - intros w1 w2 w3 (n1 & Ht1 & Hp1 & Hq1) (n2 & Ht2 & Hp2 & Hq2).
    exists (n1 ++ n2). split; [by rewrite Ht2, Ht1, app_assoc|].
    split; [by apply closed_app | by etrans].
Qed.

Section Keeps.
Context (R : World → World → Prop) `{!PreOrder R}.

Lemma keeps_ret {A} (a : A) : obeys R (ret a).
Proof. intros w. reflexivity. Qed.

Lemma keeps_bind {A B} (m : M A) (k : A → M B) :
  obeys R m → (∀ a, obeys R (k a)) → obeys R (bind m k).
Proof.
  intros Hm Hk w. unfold bind. specialize (Hm w).
  destruct (m w) as [[a|e|] w1]; cbn [snd] in *; [|done..].
  etrans; [exact Hm | apply Hk].
Qed.

Lemma keeps_external {A} c show respond :
  (∀ w x, R w (record (Called c (Raised x)) w)) →
  (∀ w, R w (record (Called c (show (fst (respond w)))) (snd (respond w)))) →
  obeys R (@external A c show respond).
Proof.
  intros Hx Hr w. unfold external. destruct (fails_at w _); [apply Hx|].
  specialize (Hr w). by destruct (respond w).
Qed.

Lemma keeps_procedure c : admits R c → obeys R (procedure c).
Proof. intros Hc. apply keeps_external; intros; apply Hc. Qed.

Lemma keeps_for_each {A} (xs : list A) (body : A → M ()) :
  (∀ x, obeys R (body x)) → obeys R (for_each xs body).
Proof.
  intros Hb. induction xs as [|x xs IH]; simpl; [apply keeps_ret|].
  apply keeps_bind; [apply Hb | by intros _].
Qed.

Lemma keeps_synchronized {A} (body : M A) :
  (∀ w, R w (record Acquire w)) → (∀ w, R w (record Release w)) →
  obeys R body → obeys R (synchronized body).
Proof.
  intros Ha Hr Hb w. unfold synchronized. specialize (Hb (record Acquire w)).
  destruct (body _) as [r w1]. cbn [snd] in *.
  etrans; [apply Ha|]. etrans; [exact Hb | apply Hr].
Qed.

Lemma keeps_get_config : obeys R get_config.
Proof. intros w. reflexivity. Qed.

Lemma keeps_get_number : obeys R get_number.
Proof. intros w. reflexivity. Qed.

Lemma keeps_get_num_waited : obeys R get_num_waited.
Proof. intros w. unfold get_num_waited. destruct (num_waited w); reflexivity. Qed.
End Keeps.

(** The loop of [_abort] and the retry loop of [abort] keep what their
    steps keep. *)
Section AbortKeeps.
Context (R : World → World → Prop) `{!PreOrder R}.
Hypothesis R_no_more_threads : obeys R no_more_threads.
Hypothesis R_active_threads : obeys R active_threads.
Hypothesis R_finish : obeys R finish.
Hypothesis R_end_log_output : obeys R end_log_output.
Hypothesis R_log_error : ∀ msg, admits R (LogError msg).
Hypothesis R_log_warn : ∀ msg num, admits R (LogWarn msg num).
Hypothesis R_sleep : ∀ secs, admits R (Sleep secs).
Hypothesis R_set_num_waited : ∀ n, obeys R (set_num_waited n).

Lemma keeps__abort_loop fuel : obeys R (_abort_loop fuel).
Proof.
  induction fuel as [|fuel IH]; [intros w; reflexivity|].
  cbn [_abort_loop]. apply (keeps_bind R); [done|].
  intros [|]; [done|].
  apply (keeps_bind R); [apply (keeps_get_num_waited R)|]. intros n.
  destruct (30 <? n).
  - apply (keeps_bind R); [by apply (keeps_procedure R) | done].
  - apply (keeps_bind R); [done|]. intros num.
    apply (keeps_bind R); [by apply (keeps_procedure R)|]. intros _.
    apply (keeps_bind R); [done|]. intros _.
    apply (keeps_bind R); [apply (keeps_get_num_waited R)|]. intros n'.
    apply (keeps_bind R); [done|]. intros _.
    apply (keeps_bind R); [by apply (keeps_procedure R)|]. by intros _.
Qed.

Lemma keeps_abort_retry fuel : obeys R (abort_retry fuel).
Proof.
  induction fuel as [|fuel IH]; intros w; [reflexivity|].
  cbn [abort_retry]. pose proof (keeps__abort_loop (passes_left w) w) as H.
  fold (_abort w) in H.
  destruct (_abort w) as [[[]|[| |what]|] w1]; cbn [snd] in *; try done.
  - etrans; [exact H | apply IH].
  - etrans; [exact H | apply IH].
Qed.

Lemma keeps_abort fuel : obeys R (abort fuel).
Proof.
  unfold abort. apply (keeps_bind R); [done|]. intros _. apply keeps_abort_retry.
Qed.
End AbortKeeps.

Ltac keep_steps R :=
  unfold Threader.finished, Threader.active_threads, Threader.finish,
    Threader.start_thread, CacheObj.incoming_add, CacheObj.incoming_len,
    CacheObj.checked_add, CacheObj.in_progress_remove,
    LoggerObj.start_output, LoggerObj.end_output, LoggerObj.log_filter_url;
  repeat first
    [ apply (keeps_ret R) | apply (keeps_get_config R)
    | apply (keeps_get_number R) | apply (keeps_get_num_waited R)
    | apply (keeps_bind R) | apply (keeps_for_each R)
    | apply (keeps_procedure R) | apply (keeps_external R)
    | match goal with |- obeys _ (if ?b then _ else _) => destruct b end
    | intro ].

(** An entry was added, or none, with [tacP] and [tacQ] for the two
    parts of the relation. *)
Ltac added tacP tacQ :=
  first
    [ exists []; split; [cbn; by rewrite app_nil_r|]; split; [tacP | tacQ]
    | eexists; split; [cbn; reflexivity|]; split; [tacP | tacQ] ].

(** *** The lock *)

Ltac lock_step := added ltac:(reflexivity) ltac:(exact I).

Lemma locked_synchronized {A} (body : M A) :
  obeys (locked true) body → obeys (locked false) (synchronized body).
Proof.
  intros Hb w. unfold synchronized.
  destruct (Hb (record Acquire w)) as (new & Ht & Hp & _).
  destruct (body _) as [r w1]. cbn [snd trace record] in *.
  exists ([entry_at (_number w) Acquire] ++ new ++ [entry_at (_number w1) Release]).
  split; [cbn [trace record]; by rewrite Ht, <- !app_assoc|]. split; [|done].
  unfold lock_kept in *. rewrite !events_app, !lock_scan_app.
  cbn [events fmap list_fmap ev entry_at lock_scan].
  by rewrite ?lock_scan_app, Hp.
Qed.

Lemma _log_url_locked u : obeys (locked true) (_log_url u).
Proof.
  unfold _log_url, set_number. keep_steps (locked true); lock_step.
Qed.

Lemma no_more_threads_locked : obeys (locked false) no_more_threads.
Proof. apply locked_synchronized. keep_steps (locked true); lock_step. Qed.

Lemma active_threads_locked : obeys (locked false) active_threads.
Proof. apply locked_synchronized. keep_steps (locked true); lock_step. Qed.

Lemma finish_locked : obeys (locked false) finish.
Proof. apply locked_synchronized. keep_steps (locked true); lock_step. Qed.

Lemma end_log_output_locked : obeys (locked false) end_log_output.
Proof. apply locked_synchronized. keep_steps (locked true); lock_step. Qed.

Lemma abort_locked fuel : obeys (locked false) (abort fuel).
Proof.
  apply (keeps_abort (locked false)).
  - apply no_more_threads_locked.
  - apply active_threads_locked.
  - apply finish_locked.
  - apply end_log_output_locked.
  - intros msg w a. lock_step.
  - intros msg num w a. lock_step.
  - intros secs w a. lock_step.
  - intros n w. lock_step.
Qed.

Lemma run_op_locked op w : locked false w (run_op op w).
Proof.
  destruct op; cbn [run_op]; unfold exec.
  - apply locked_synchronized. intros w1.
    destruct (decide _); [|destruct (decide _)]; lock_step.
  - apply locked_synchronized. pose proof _log_url_locked.
    keep_steps (locked true); try done; lock_step.
  - unfold check_url. revert w. keep_steps (locked false); lock_step.
  - apply locked_synchronized. pose proof _log_url_locked.
    keep_steps (locked true); try done; lock_step.
  - apply locked_synchronized. keep_steps (locked true); lock_step.
  - apply locked_synchronized. keep_steps (locked true); lock_step.
  - apply finish_locked.
  - apply no_more_threads_locked.
  - apply abort_locked.
  - apply locked_synchronized. keep_steps (locked true); lock_step.
  - apply locked_synchronized. keep_steps (locked true); lock_step.
  - apply locked_synchronized. apply _log_url_locked.
  - apply end_log_output_locked.
  - apply active_threads_locked.
Qed.

Lemma run_ops_locked ops : ∀ w, locked false w (run_ops ops w).
Proof.
  induction ops as [|op ops IH]; intros w; [reflexivity|].
  cbn [run_ops foldl]. etrans; [apply run_op_locked | apply IH].
Qed.

(** X1.  Whatever the collaborators do (answer or raise) and whatever
    the sequence of operations, the consumer takes and releases the lock
    in turn: it never takes the lock while it holds it, it holds no lock
    when the sequence is over, and every call it makes is on the side of
    the lock where the source puts it. *)
Theorem lock_discipline (ops : list Op) (w : World) :
  lock_scan false (events (news w (run_ops ops w))) = Some false.
Proof.
  destruct (run_ops_locked ops w) as (new & Ht & Hp & _).
  by rewrite (news_app _ _ _ Ht).
Qed.

(** The scan does reject a lock taken twice, a sleep under the lock and
    a cache call without it. *)
Example lock_scan_rejects :
  lock_scan false [Acquire; Acquire] = None ∧
  lock_scan false [Acquire; Called (Sleep 2) Done; Release] = None ∧
  lock_scan false [Called CacheIncomingLen (Int 0)] = None ∧
  lock_scan false [Acquire; Called CacheIncomingLen (Raised SystemExit)] = Some true.
Proof. by repeat split. Qed.

Lemma lock_scan_place es :
  ∀ h h', lock_scan h es = Some h' →
  ∀ i c a, es !! i = Some (Called c a) →
  foldl (λ h e, match e with
                | Acquire => true
                | Release => false
                | Called _ _ => h
                end) h (take i es) = needs_lock c.
Proof.
  induction es as [|e es IH]; intros h h' Hs i c a Hi; [done|].
  destruct i as [|i]; cbn [take foldl lookup list_lookup] in *.
  - simplify_eq/=. destruct (Bool.eqb _ _) eqn:E; [|done].
    by apply Bool.eqb_prop in E.
  - destruct e as [| |c' a']; cbn [lock_scan] in Hs.
    + destruct h; [done|]. by eapply IH.
    + destruct h; [|done]. by eapply IH.
    + destruct (Bool.eqb _ _); [|done]. by eapply IH.
Qed.

(** X2.  In any sequence of operations, when a call is made the lock is
    held exactly if the call is one the source makes inside a
    synchronized method: the cache, the loggers and the pool's status
    are only reached with the lock held, and the consumer never sleeps,
    starts a thread or writes a log message while holding it. *)
Theorem calls_in_place (ops : list Op) (w : World) (i : nat) (c : Call) (a : Answer) :
  events (news w (run_ops ops w)) !! i = Some (Called c a) →
  lock_held (take i (events (news w (run_ops ops w)))) = needs_lock c.
Proof.
  intros Hi. destruct (run_ops_locked ops w) as (new & Ht & Hp & _).
  rewrite (news_app _ _ _ Ht) in *. unfold lock_held.
  by eapply lock_scan_place.
Qed.

Lemma calls_in_place_witness :
  lock_held (take 10 (events (news (world_of busy_env)
     (run_ops [OpAbort 1] (world_of busy_env))))) = needs_lock (Sleep 2).
Proof.
  apply (calls_in_place [OpAbort 1] (world_of busy_env) 10 (Sleep 2) Done).
  reflexivity.
Defined.

(** *** Which operations log *)

Ltac silent_step := added ltac:(by repeat constructor) ltac:(done).

Ltac silent_sync :=
  apply (keeps_synchronized silent); [intros ?; silent_step..|].

Lemma abort_silent fuel : obeys silent (abort fuel).
Proof.
  apply (keeps_abort silent).
  - silent_sync. keep_steps silent; silent_step.
  - silent_sync. keep_steps silent; silent_step.
  - silent_sync. keep_steps silent; silent_step.
  - silent_sync. keep_steps silent; silent_step.
  - intros msg w a. silent_step.
  - intros msg num w a. silent_step.
  - intros secs w a. silent_step.
  - intros n w. silent_step.
Qed.

Lemma run_op_silent op w : is_logging_op op = false → silent w (run_op op w).
Proof.
  destruct op; cbn [run_op is_logging_op]; intros Hop; try done; unfold exec;
    try apply abort_silent; revert w;
    try (silent_sync; keep_steps silent; silent_step).
  - silent_sync. intros w. destruct (decide _); [|destruct (decide _)]; silent_step.
  - unfold check_url. keep_steps silent; silent_step.
Qed.

(** X4.  Only [append_url], [checked] and [log_url] log: every other
    operation, however it ends, leaves the counter as it was and calls
    [log_filter_url] on no logger. *)
Theorem other_operations_do_not_log (op : Op) (w : World) :
  is_logging_op op = false →
  _number (run_op op w) = _number w ∧
  Forall (λ e, is_log_emission e = false) (events (news w (run_op op w))).
Proof.
  intros Hop. destruct (run_op_silent op w Hop) as (new & Ht & Hp & Hq).
  split; [done|]. rewrite (news_app _ _ _ Ht). by apply Forall_fmap.
Qed.

Lemma other_operations_do_not_log_witness :
  _number (run_op (OpInterrupted item_A) (world_of idle_env)) = 0 ∧
  Forall (λ e, is_log_emission e = false)
    (events (news (world_of idle_env)
       (run_op (OpInterrupted item_A) (world_of idle_env)))).
Proof.
  apply (other_operations_do_not_log (OpInterrupted item_A) (world_of idle_env)).
  reflexivity.
Defined.

(** *** What abort touches *)

Ltac abort_step := added ltac:(by repeat constructor) ltac:(done).

Ltac abort_sync :=
  apply (keeps_synchronized abort_only); [intros ?; abort_step..|].

Lemma abort_abort_only fuel : obeys abort_only (abort fuel).
Proof.
  apply (keeps_abort abort_only).
  - abort_sync. keep_steps abort_only; abort_step.
  - abort_sync. keep_steps abort_only; abort_step.
  - abort_sync. keep_steps abort_only; abort_step.
  - abort_sync. keep_steps abort_only; abort_step.
  - intros msg w a. abort_step.
  - intros msg num w a. abort_step.
  - intros secs w a. abort_step.
  - intros n w. abort_step.
Qed.

(** X8.  However [abort] ends, it has only asked the pool for its
    status and to finish, written its two log messages, slept and ended
    the loggers' output: it makes no cache call, starts no thread and
    logs no item, and the counter, the configuration and the cache are as
    they were. *)
Theorem abort_footprint (fuel : nat) (w : World) :
  let w' := exec (abort fuel) w in
  Forall (λ e, match e with
               | Called c _ => abort_call c = true
               | _ => True
               end) (events (news w w')) ∧
  _number w' = _number w ∧ _config w' = _config w ∧ _cache w' = _cache w.
Proof.
  destruct (abort_abort_only fuel w) as (new & Ht & Hp & Hq).
  cbn zeta. unfold exec. split; [|done].
  rewrite (news_app _ _ _ Ht). by apply Forall_fmap.
Qed.

(** *** How long abort waits *)

Ltac restful_step := added ltac:(reflexivity) ltac:(done).

Ltac restful_sync :=
  apply (keeps_synchronized restful); [intros ?; restful_step..|].

Lemma no_more_threads_restful : obeys restful no_more_threads.
Proof. restful_sync. keep_steps restful; restful_step. Qed.

Lemma active_threads_restful : obeys restful active_threads.
Proof. restful_sync. keep_steps restful; restful_step. Qed.

Lemma finish_restful : obeys restful finish.
Proof. restful_sync. keep_steps restful; restful_step. Qed.

Lemma end_log_output_restful : obeys restful end_log_output.
Proof. restful_sync. keep_steps restful; restful_step. Qed.

Lemma restful_slept w w1 w' : restful w w1 → slept w1 w' → slept w w'.
Proof.
  intros (n1 & Ht1 & Hp1 & Hq1) Hs n Hn Hle.
  unfold same_num_waited, no_sleep in *.
  destruct (Hs n) as (n2 & Ht2 & Hn2 & Hle2); [congruence | done |].
  exists (n1 ++ n2). rewrite events_app, count_app, Hp1.
  split; [by rewrite Ht2, Ht1, app_assoc | done].
Qed.

Lemma slept_refl w : slept w w.
Proof.
  intros n Hn Hle. exists []. rewrite app_nil_r, Z.add_0_r. done.
Qed.

Lemma slept_trans w1 w2 w3 : slept w1 w2 → slept w2 w3 → slept w1 w3.
Proof.
  intros H1 H2 n Hn Hle. destruct (H1 n Hn Hle) as (n1 & Ht1 & Hn1 & Hle1).
  destruct (H2 _ Hn1 Hle1) as (n2 & Ht2 & Hn2 & Hle2).
  exists (n1 ++ n2). rewrite events_app, count_app.
  split; [by rewrite Ht2, Ht1, app_assoc|].
  split; [rewrite Hn2; f_equal; lia | lia].
Qed.

Lemma slept_bind {A B} (m : M A) (k : A → M B) w :
  obeys restful m →
  (∀ a w1, m w = (Ok a, w1) → num_waited w1 = num_waited w →
           slept w1 (snd (k a w1))) →
  slept w (snd (bind m k w)).
Proof.
  intros Hm Hk. unfold bind. pose proof (Hm w) as Hr.
  destruct (m w) as [[a|e|] w1] eqn:E; cbn [snd] in *.
  - eapply restful_slept; [exact Hr|]. apply Hk; [done|].
    by destruct Hr as (_ & _ & _ & Hq).
  - eapply restful_slept; [exact Hr | apply slept_refl].
  - eapply restful_slept; [exact Hr | apply slept_refl].
Qed.

Lemma _abort_loop_slept fuel : ∀ w, slept w (snd (_abort_loop fuel w)).
Proof.
  induction fuel as [|fuel IH]; intros w; [apply slept_refl|].
  cbn [_abort_loop]. apply slept_bind; [apply no_more_threads_restful|].
  intros [|] w1 _ Hn1.
  { eapply restful_slept; [apply end_log_output_restful | apply slept_refl]. }
  apply slept_bind; [apply (keeps_get_num_waited restful)|]. intros n w2 Hget Hn2.
  assert (num_waited w2 = Some n) as Hw2.
  { unfold get_num_waited in Hget. destruct (num_waited w1) eqn:E; simplify_eq.
    done. }
  destruct (30 <? n) eqn:Hcmp.
  { eapply restful_slept; [|apply slept_refl].
    assert (obeys restful (procedure (LogError "Thread wait timeout") ;;
                           end_log_output)) as H; [|apply H].
    apply (keeps_bind restful); [|intros _; apply end_log_output_restful].
    apply (keeps_procedure restful). intros w' a. restful_step. }
  apply Z.ltb_ge in Hcmp.
  apply slept_bind; [apply active_threads_restful|]. intros num w3 _ Hn3.
  apply slept_bind.
  { apply (keeps_procedure restful). intros w' a. restful_step. }
  intros _ w4 _ Hn4.
  apply slept_bind; [apply finish_restful|]. intros _ w5 _ Hn5.
  apply slept_bind; [apply (keeps_get_num_waited restful)|]. intros n' w6 Hget' Hn6.
  assert (num_waited w5 = Some n) as Hw5 by congruence.
  assert (n' = n ∧ w6 = w5) as [-> ->].
  { unfold get_num_waited in Hget'. rewrite Hw5 in Hget'. by simplify_eq. }
  unfold bind at 1. cbn [set_num_waited].
  intros m Hm Hle. assert (m = n) as -> by congruence.
  unfold bind, procedure, external. cbn [fails_at trace].
  destruct (fails_at w5 _) as [x|]; cbn [snd].
  - eexists [_]. split; [done|]. cbn. split; [done | lia].
  - match goal with |- context [_abort_loop fuel ?w7] =>
      destruct (IH w7 (n + 1)) as (new & Ht & Hnw & Hb); [done | lia |] end.
    cbn [trace record] in Ht. eexists (_ :: new).
    split; [by rewrite Ht, <- app_assoc|].
    change (events (?e :: new)) with (ev e :: events new).
    cbn [ev]. unfold count in *. cbn [List.filter is_wait length].
    split; [rewrite Hnw; f_equal; lia | lia].
Qed.

Lemma abort_retry_slept fuel : ∀ w, slept w (snd (abort_retry fuel w)).
Proof.
  induction fuel as [|fuel IH]; intros w; [apply slept_refl|].
  cbn [abort_retry]. pose proof (_abort_loop_slept (passes_left w) w) as H.
  fold (_abort w) in H.
  destruct (_abort w) as [[[]|[| |what]|] w1]; cbn [snd] in *; try done.
  - eapply slept_trans; [exact H | apply IH].
  - eapply slept_trans; [exact H | apply IH].
Qed.

(** X7.  [abort] starts at most 31 sleeps, however often it is
    interrupted and goes round again: the count of waits is kept across
    the retries. *)
Theorem abort_sleeps_at_most_31_times (fuel : nat) (w : World) :
  (count is_wait (events (news w (exec (abort fuel) w))) ≤ 31)%nat.
Proof.
  unfold exec, abort, bind. cbn [set_num_waited].
  match goal with |- context [abort_retry fuel ?w0] =>
    destruct (abort_retry_slept fuel w0 0) as (new & Ht & _ & Hb);
      [done | lia |] end.
  cbn [trace] in Ht. rewrite (news_app _ _ _ Ht). lia.
Qed.

(** *** Every run of [finished] *)

(** X3.  [finished()] has four ways to run.  It asks the cache for its
    queue length only after the pool has reported that it is finished;
    when the pool is not finished it returns false without reading the
    queue.  An exception from the pool or the cache leaves [finished()]
    after the lock has been released. *)
Theorem finished_runs (w : World) :
  let r := fst (finished w) in
  let es := events (news w (exec finished w)) in
  (∃ x, es = [Acquire; Called PoolFinished (Raised x); Release] ∧ r = Raise x) ∨
  (es = [Acquire; Called PoolFinished (Bool false); Release] ∧ r = Ok false) ∨
  (∃ x, es = [Acquire; Called PoolFinished (Bool true);
              Called CacheIncomingLen (Raised x); Release] ∧ r = Raise x) ∨
  (∃ n, es = [Acquire; Called PoolFinished (Bool true);
              Called CacheIncomingLen (Int n); Release] ∧ r = Ok (n =? 0)).
Proof.
  cbn zeta. unfold exec, finished, synchronized, Threader.finished,
    CacheObj.incoming_len, external, bind.
  destruct (fails_at (record Acquire w) (length (trace (record Acquire w))))
    as [x|]; cbn [fst snd].
  { left. exists x. split; [|done].
    erewrite news_app; [|cbn [trace record]; by rewrite <- !app_assoc]. done. }
  right. cbn [_threader record set_threader].
  destruct (finished_at (_threader w) (finished_asked (_threader w))).
  - right.
    match goal with |- context [fails_at ?W (length (trace ?W))] =>
      destruct (fails_at W (length (trace W))) as [x|] end; cbn [fst snd ret].
    + left. exists x. split; [|done].
      erewrite news_app; [|cbn [trace record set_threader];
                           by rewrite <- !app_assoc]. done.
    + right. eexists. split; [|done].
      erewrite news_app; [|cbn [trace record set_threader set_cache];
                           by rewrite <- !app_assoc]. done.
  - left. cbn [fst snd ret]. split; [|done].
    erewrite news_app; [|cbn [trace record set_threader];
                         by rewrite <- !app_assoc]. done.
Qed.

(** *** A logger that raises *)

(** A loop of calls goes as far as the first call that raises. *)
Lemma for_each_run {A} (f : A → Call) xs :
  ∀ w,
  ∃ j, (j ≤ length xs)%nat ∧
    let res := for_each xs (λ x, procedure (f x)) w in
    let before := records ((λ x, Called (f x) Done) <$> take j xs) w in
    (∀ i, (i < j)%nat → fails_at w (length (trace w) + i) = None) ∧
    match fst res with
    | Ok _ => j = length xs ∧ snd res = before
    | Raise x =>
        ∃ y, xs !! j = Some y ∧
             fails_at w (length (trace w) + j) = Some x ∧
             snd res = record (Called (f y) (Raised x)) before
    | OutOfFuel => False
    end.
Proof.
  induction xs as [|x xs IH]; intros w.
  { exists 0%nat. split; [done|]. split; [intros; lia | done]. }
  cbn [for_each]. cbn zeta. unfold bind.
  destruct (procedure (f x) w) as [r w1] eqn:Hp.
  unfold procedure, external in Hp.
  destruct (fails_at w (length (trace w))) as [e|] eqn:Hf; simplify_eq.
  - exists 0%nat. split; [cbn; lia|]. split; [intros; lia|].
    cbn [fst snd]. exists x. rewrite Nat.add_0_r. done.
  - destruct (IH (record (Called (f x) Done) w)) as (j & Hj & Hq & Hres).
    exists (S j). split; [cbn; lia|].
    cbn [trace record fails_at] in Hq, Hres. rewrite length_app in Hq, Hres.
    cbn [length] in Hq, Hres.
    split.
    { intros [|i] Hi; [by rewrite Nat.add_0_r|].
      replace (length (trace w) + S i)%nat with (length (trace w) + 1 + i)%nat by lia.
      apply Hq. lia. }
    destruct (fst (for_each xs _ _)).
    + destruct Hres as [-> ->]. done.
    + destruct Hres as (y & Hy & Hfy & ->). exists y. split; [done|].
      split; [|done]. rewrite <- Hfy. f_equal. lia.
    + done.
Qed.

(** X5.  [_log_url] counts the item before it calls any logger, and the
    fan-out has no handler: if the call on a logger raises, the loggers
    before it in the list have received the item, those after it have
    not, the exception leaves [_log_url] and the counter stays
    incremented. *)
Theorem log_url_stops_at_failing_logger (u : UrlData) (w : World) :
  let cfg := _config w in
  let ls := cfg_logger cfg :: cfg_fileoutput cfg in
  let print := do_print cfg u in
  let res := _log_url u w in
  let es := events (news w (snd res)) in
  _number (snd res) = _number w + 1 ∧
  match fst res with
  | Ok _ => es = (λ l, Called (LogFilterUrl l u print) Done) <$> ls
  | Raise x =>
      ∃ j l, ls !! j = Some l ∧
        es = ((λ l, Called (LogFilterUrl l u print) Done) <$> take j ls) ++
             [Called (LogFilterUrl l u print) (Raised x)]
  | OutOfFuel => False
  end.
Proof.
  cbn zeta. split; [apply _log_url_number|].
  set (w1 := {| _number := _number w + 1; num_waited := num_waited w;
                _config := _config w; _threader := _threader w;
                _cache := _cache w; fails_at := fails_at w; trace := trace w |}).
  assert (_log_url u w =
          for_each (cfg_logger (_config w) :: cfg_fileoutput (_config w))
            (λ l, procedure (LogFilterUrl l u (do_print (_config w) u))) w1)
    as -> by reflexivity.
  destruct (for_each_run (λ l, LogFilterUrl l u (do_print (_config w) u))
              (cfg_logger (_config w) :: cfg_fileoutput (_config w)) w1)
    as (j & Hj & _ & Hres).
  cbn zeta in Hres.
  destruct (for_each _ _ w1) as [r w2]. cbn [fst snd] in *.
  destruct r as [[]|x|]; [| |done].
  - destruct Hres as [-> ->]. rewrite firstn_all.
    rewrite (news_records w w1) by done. by rewrite events_entry_at.
  - destruct Hres as (l & Hl & _ & ->). exists j, l. split; [done|].
    erewrite news_app.
    2: { cbn [trace record]. rewrite records_trace, records_number.
         change (trace w1) with (trace w). by rewrite <- app_assoc. }
    by rewrite events_app, events_entry_at.
Qed.

(** X6.  [end_log_output] ends the loggers in list order and has no
    handler either: if a logger's [end_output()] raises, the loggers
    after it are not ended, the lock is released and the exception
    leaves [end_log_output]. *)
Theorem end_log_output_stops_at_failing_logger (w : World) :
  let cfg := _config w in
  let ls := cfg_logger cfg :: cfg_fileoutput cfg in
  let res := end_log_output w in
  let es := events (news w (snd res)) in
  match fst res with
  | Ok _ => es = end_block cfg
  | Raise x =>
      ∃ j l, ls !! j = Some l ∧
        es = [Acquire] ++ ((λ l, Called (EndOutput l) Done) <$> take j ls) ++
             [Called (EndOutput l) (Raised x); Release]
  | OutOfFuel => False
  end.
Proof.
  cbn zeta.
  assert (end_log_output w =
          let '(r, w1) :=
            for_each (cfg_logger (_config w) :: cfg_fileoutput (_config w))
              (λ l, procedure (EndOutput l)) (record Acquire w) in
          (r, record Release w1)) as -> by reflexivity.
  destruct (for_each_run EndOutput
              (cfg_logger (_config w) :: cfg_fileoutput (_config w))
              (record Acquire w)) as (j & Hj & _ & Hres).
  cbn zeta in Hres.
  destruct (for_each _ _ (record Acquire w)) as [r w1]. cbn [fst snd] in *.
  destruct r as [[]|x|]; [| |done].
  - destruct Hres as [-> ->]. rewrite firstn_all.
    erewrite news_app.
    2: { cbn [trace record]. rewrite records_trace, records_number.
         cbn [trace record _number]. by rewrite <- !app_assoc. }
    rewrite !events_app, events_entry_at. done.
  - destruct Hres as (l & Hl & _ & ->). exists j, l. split; [done|].
    erewrite news_app.
    2: { cbn [trace record]. rewrite records_trace, records_number.
         cbn [trace record _number]. by rewrite <- !app_assoc. }
    rewrite !events_app, events_entry_at. done.
Qed.

(** With the primary logger answering and the first sink raising, the
    second sink never sees the item, and the counter has moved. *)
Example log_url_with_a_failing_sink :
  let w := {| _number := 0; num_waited := None; _config := example_config;
              _threader := new_Threader idle_env 10; _cache := example_cache;
              fails_at := λ t, if decide (t = 1%nat) then Some (Error "IOError")
                               else None;
              trace := [] |} in
  fst (_log_url item_A w) = Raise (Error "IOError") ∧
  _number (exec (_log_url item_A) w) = 1 ∧
  events (trace (exec (_log_url item_A) w)) =
    [Called (LogFilterUrl "text" item_A true) Done;
     Called (LogFilterUrl "html" item_A true) (Raised (Error "IOError"))].
Proof. by repeat split. Qed.

Lemma for_each_window {A} (f : A → Call) xs w :
  (∀ i, (i < length xs)%nat → fails_at w (length (trace w) + i) = None) →
  for_each xs (λ x, procedure (f x)) w =
    (Ok (), records ((λ x, Called (f x) Done) <$> xs) w).
Proof.
  intros Hq. destruct (for_each_run f xs w) as (j & Hj & _ & Hres).
  cbn zeta in Hres. destruct (for_each xs _ w) as [r w'].
  cbn [fst snd] in *. destruct r as [[]|x|]; [| |done].
  - destruct Hres as [-> ->]. by rewrite firstn_all.
  - destruct Hres as (y & Hy & Hf & _). apply lookup_lt_Some in Hy.
    by rewrite Hq in Hf.
Qed.

(** X12.  [checked] does not undo the logging when the cache then
    fails: if every logger takes the item and the cache operation
    raises, the exception leaves [checked] with the lock released, the
    item logged on every logger and the counter incremented. *)
Theorem checked_keeps_log_when_cache_fails (u : UrlData) (w : World) (x : Exn) :
  let cfg := _config w in
  let first := S (length (trace w)) in
  let loggers := S (length (cfg_fileoutput cfg)) in
  let op := if caching u && negb (cached u) then CacheCheckedAdd u
            else CacheInProgressRemove u false in
  (∀ i, (i < loggers)%nat → fails_at w (first + i) = None) →
  fails_at w (first + loggers) = Some x →
  ∃ w', checked u w = (Raise x, w') ∧
    _number w' = _number w + 1 ∧
    events (news w w') =
      [Acquire] ++ log_block cfg u (do_print cfg u) ++
      [Called op (Raised x); Release].
Proof.
  intros cfg first loggers op Hlog Hcache.
  set (w1 := bump (record Acquire w)).
  set (blk := log_block cfg u (do_print cfg u)).
  assert (_log_url u (record Acquire w) = (Ok (), records blk w1)) as Hrun.
  { change (_log_url u (record Acquire w)) with
      (for_each (cfg_logger cfg :: cfg_fileoutput cfg)
         (λ l, procedure (LogFilterUrl l u (do_print cfg u))) w1).
    apply for_each_window. intros i Hi. cbn [fails_at trace w1 bump set_number snd record].
    rewrite length_app. cbn [length] in *.
    replace (length (trace w) + 1 + i)%nat with (first + i)%nat by (unfold first; lia).
    by apply Hlog. }
  assert (length (trace (records blk w1)) = (first + loggers)%nat) as Hlen.
  { rewrite records_trace. unfold blk, log_block.
    rewrite length_app, !length_fmap.
    cbn [trace w1 bump set_number snd record length]. rewrite length_app.
    cbn [length]. unfold first, loggers, cfg. lia. }
  assert (∀ c, procedure c (records blk w1) =
               (Raise x, record (Called c (Raised x)) (records blk w1))) as Hc.
  { intros c. unfold procedure, external.
    rewrite (proj1 (proj2 (proj2 (proj2 (proj2 (proj2 (records_fields blk w1))))))).
    rewrite Hlen. cbn [fails_at w1 bump set_number snd record].
    by rewrite Hcache. }
  eexists. split.
  { unfold checked, synchronized, bind. rewrite Hrun.
    unfold CacheObj.checked_add, CacheObj.in_progress_remove.
    assert ((if caching u && negb (cached u)
             then procedure (CacheCheckedAdd u)
             else procedure (CacheInProgressRemove u false)) (records blk w1) =
            (Raise x, record (Called op (Raised x)) (records blk w1))) as ->.
    { unfold op. destruct (caching u && negb (cached u)); apply Hc. }
    done. }
  split.
  - cbn [_number record]. by rewrite records_number.
  - erewrite news_app.
    2: { cbn [trace record]. rewrite records_trace, !records_number.
         cbn [trace _number w1 bump set_number snd record].
         by rewrite <- !app_assoc. }
    by rewrite !events_app, events_entry_at.
Qed.

Lemma checked_keeps_log_when_cache_fails_witness :
  let w := {| _number := 0; num_waited := None; _config := example_config;
              _threader := new_Threader idle_env 10; _cache := example_cache;
              fails_at := λ t, if decide (t = 4%nat) then Some (Error "KeyError")
                               else None;
              trace := [] |} in
  ∃ w', checked item_B w = (Raise (Error "KeyError"), w') ∧
    _number w' = 1 ∧
    events (news w w') =
      [Acquire;
       Called (LogFilterUrl "text" item_B false) Done;
       Called (LogFilterUrl "html" item_B false) Done;
       Called (LogFilterUrl "csv" item_B false) Done;
       Called (CacheCheckedAdd item_B) (Raised (Error "KeyError")); Release].
Proof.
  cbn zeta.
  apply (checked_keeps_log_when_cache_fails item_B
    {| _number := 0; num_waited := None; _config := example_config;
       _threader := new_Threader idle_env 10; _cache := example_cache;
       fails_at := λ t, if decide (t = 4%nat) then Some (Error "KeyError")
                        else None;
       trace := [] |} (Error "KeyError")).
  - intros i Hi. cbn in *. case_decide; [lia | done].
  - reflexivity.
Defined.

(** *** A logger added to the configuration *)

(** X9.  A logger appended to the [fileoutput] option receives the items
    logged from then on, after the loggers that were there before.
    [config_append] itself only takes and releases the lock: it calls
    nothing on the new logger, in particular not [start_output()]. *)
Theorem config_append_adds_sink (l : Logger) (u : UrlData) (w : World) :
  quiet w →
  let cfg := _config w in
  ∃ w1 w2,
    config_append "fileoutput" l w = (Ok (), w1) ∧
    events (news w w1) = [Acquire; Release] ∧
    log_url u w1 = (Ok (), w2) ∧
    events (news w1 w2) =
      [Acquire] ++
      ((λ l', Called (LogFilterUrl l' u (do_print cfg u)) Done) <$>
         (cfg_logger cfg :: cfg_fileoutput cfg ++ [l])) ++
      [Release].
Proof.
  intros Hq cfg. unfold config_append, synchronized.
  destruct (decide ("fileoutput"%string = "fileoutput"%string)); [|done].
  cbn [_number num_waited _config _threader _cache fails_at trace record].
  do 2 eexists. split; [reflexivity|]. split.
  { erewrite news_app; [|cbn [trace record]; by rewrite <- !app_assoc]. done. }
  unfold log_url, synchronized.
  rewrite _log_url_quiet by exact Hq. split; [reflexivity|].
  erewrite news_app.
  2: { cbn [trace record]. rewrite records_trace, !records_number.
       cbn [trace _number bump set_number snd record].
       by rewrite <- !app_assoc. }
  rewrite !events_app, events_entry_at. done.
Qed.

Lemma config_append_adds_sink_witness :
  ∃ w1 w2,
    config_append "fileoutput" "xml" (world_of idle_env) = (Ok (), w1) ∧
    events (news (world_of idle_env) w1) = [Acquire; Release] ∧
    log_url item_A w1 = (Ok (), w2) ∧
    events (news w1 w2) =
      [Acquire;
       Called (LogFilterUrl "text" item_A true) Done;
       Called (LogFilterUrl "html" item_A true) Done;
       Called (LogFilterUrl "csv" item_A true) Done;
       Called (LogFilterUrl "xml" item_A true) Done;
       Release].
Proof.
  apply (config_append_adds_sink "xml" item_A (world_of idle_env)).
  intros t. reflexivity.
Defined.

(** The other keys: the value of an option that is not a list has no
    [append], and a key outside the mapping cannot be looked up.  The
    lock is released in both cases. *)
Example config_append_other_keys :
  fst (config_append "verbose" "xml" (world_of idle_env)) = Raise (Error "AttributeError") ∧
  fst (config_append "nokey" "xml" (world_of idle_env)) = Raise (Error "KeyError") ∧
  events (trace (exec (config_append "nokey" "xml") (world_of idle_env))) =
    [Acquire; Release] ∧
  _config (exec (config_append "nokey" "xml") (world_of idle_env)) = example_config.
Proof. by repeat split. Qed.

(** *** Abort on any pool *)

(** The first of the next [m] answers of the pool that says finished. *)
Lemma first_finished (f : nat → bool) (from m : nat) :
  ∃ k, (k ≤ m)%nat ∧
    (∀ i, (i < k)%nat → f (from + i)%nat = false) ∧
    ((k < m)%nat → f (from + k)%nat = true).
Proof.
  induction m as [|m (k & Hk & Hbusy & Hdone)].
  { exists 0%nat. repeat split; intros; lia. }
  destruct (decide (k < m)%nat) as [Hlt|Hge].
  { exists k. split; [lia|]. split; [done|]. intros _. by apply Hdone. }
  assert (k = m) as -> by lia.
  destruct (f (from + m)%nat) eqn:E.
  - exists m. split; [lia|]. by split.
  - exists (S m). split; [lia|]. split; [|intros; lia].
    intros i Hi. destruct (decide (i = m)) as [->|]; [done|]. apply Hbusy. lia.
Qed.

(** X10.  When no collaborator raises, [abort] returns normally whatever
    the pool answers and however its answers change: it waits at most 31
    times and finishes by calling [end_output()] once on each logger, in
    list order. *)
Theorem abort_returns_when_quiet (w : World) (fuel : nat) :
  quiet w →
  ∃ w', abort (S fuel) w = (Ok (), w') ∧
    let new := events (news w w') in
    (count is_wait new ≤ 31)%nat ∧
    ended new = cfg_logger (_config w) :: cfg_fileoutput (_config w) ∧
    ∃ before, new = before ++ end_block (_config w).
Proof.
  intros Hq.
  destruct (first_finished (finished_at (_threader w))
              (finished_asked (_threader w)) 32) as (k & Hk & Hbusy & Hdone).
  destruct (abort_quiet w k fuel Hq Hk Hbusy Hdone) as (w' & Hrun & Hnew).
  exists w'. split; [done|]. cbn zeta. rewrite Hnew. unfold abort_events.
  destruct (rounds_counts (active_at (_threader w)) (active_asked (_threader w))
              (k `min` 31)) as (_ & Hw & _ & He).
  destruct (end_block_counts (_config w)) as (_ & Hw' & _ & He').
  split; [|split].
  - rewrite !count_app, Hw, Hw'. destruct (decide (k = 32%nat)); cbn; lia.
  - unfold ended in *. rewrite !omap_app, He, He'.
    by destruct (decide (k = 32%nat)).
  - eexists. by rewrite app_assoc.
Qed.

Lemma abort_returns_when_quiet_witness :
  ∃ w', abort 1 (world_of idle_env) = (Ok (), w') ∧
    let new := events (news (world_of idle_env) w') in
    (count is_wait new ≤ 31)%nat ∧
    ended new = ["text"; "html"; "csv"]%string ∧
    ∃ before, new = before ++ end_block example_config.
Proof.
  apply (abort_returns_when_quiet (world_of idle_env) 0).
  intros t. reflexivity.
Defined.

(** *** The scan of the warnings *)

(** X11.  Leaving the loop over the warnings at the first tag that is
    not ignored does not make the result depend on the order of the
    warnings or on their messages: two lists with the same tags give the
    same [has_warnings]. *)
Theorem has_warnings_same_tags (ws ws' : list (string * string)) (ignore : gset string) :
  (∀ tag, tag ∈ ws.*1 ↔ tag ∈ ws'.*1) →
  has_warnings ws ignore = has_warnings ws' ignore.
Proof.
  intros Htags.
  assert (∀ l : list (string * string),
            has_warnings l ignore = true ↔ ∃ tag, tag ∈ l.*1 ∧ tag ∉ ignore) as Hspec.
  { intros l. rewrite has_warnings_spec. split.
    - intros (tag & content & Hin & Hout). exists tag. split; [|done].
      apply list_elem_of_fmap. by exists (tag, content).
    - intros (tag & Hin & Hout). apply list_elem_of_fmap in Hin as ([t c] & -> & Hin).
      by exists t, c. }
  apply eq_true_iff_eq. rewrite !Hspec. by setoid_rewrite Htags.
Qed.

Lemma has_warnings_same_tags_witness :
  has_warnings [("slow", "2s"); ("moved", "301")]%string {["moved"%string]} =
  has_warnings [("moved", "302"); ("slow", "9s"); ("slow", "1s")]%string {["moved"%string]}.
Proof.
  apply has_warnings_same_tags. intros tag. cbn.
  rewrite !elem_of_cons, !elem_of_nil. tauto.
Defined.
